(** * Adaptive epidemic dynamics: SIR runs under static, scheduled and
      feedback-controlled transmission rates

    A shallow embedding of [src/adaptive_control.py], [src/sir_model.py]
    and [src/simulation.py].

    - Python numbers are duck-typed in the source (the experiments pass the
      integers [(0, 200)] and [5] for the time span and the control interval,
      and floats for everything else), so the embedding is written once over a
      class [PyNum] of the operations the source uses, with two instances:
      exact rationals [Q] (what [int] arithmetic and the mathematics do) and
      IEEE binary64 [float] (what Python's [float] does).
    - The rate policies are records; the adaptive one carries the mutable
      attribute [current_beta], threaded explicitly.
    - The integrator calls the rate policy back an unspecified number of
      times; it is a program in a small free monad [ode] whose only effect is
      that call.
    - Exceptions and the mutated policy object are threaded by the monad [M];
      the [while] loop of the adaptive driver takes fuel. *)

From Stdlib Require Import ZArith QArith Qround Lqa List String Bool Lia.
From Stdlib Require Import PrimFloat Uint63 SpecFloat FloatOps FloatAxioms.
Import ListNotations.

Set Implicit Arguments.

(* ================================================================== *)
(** * Python numbers *)

Class PyNum (T : Type) : Type := {
  lit  : Q -> T;          (* a decimal literal of the source text *)
  add  : T -> T -> T;
  sub  : T -> T -> T;
  mul  : T -> T -> T;
  div  : T -> T -> T;
  neg  : T -> T;
  lt   : T -> T -> bool;  (* [a < b]; [a > b] is [lt b a] *)
  ceil : T -> Z           (* [math.ceil] *)
}.

Declare Scope py_scope.
Delimit Scope py_scope with py.
Infix "+" := add : py_scope.
Infix "-" := sub : py_scope.
Infix "*" := mul : py_scope.
Infix "/" := div : py_scope.
Notation "- x" := (neg x) : py_scope.
Infix "<?" := lt : py_scope.
Notation "x >? y" := (lt y x) : py_scope.

(** ** Exact arithmetic *)

Definition Qltb (a b : Q) : bool :=
  (Qnum a * Zpos (Qden b) <? Qnum b * Zpos (Qden a))%Z.

#[export] Instance PyNum_Q : PyNum Q := {
  lit q := q;
  add := Qplus;
  sub := Qminus;
  mul := Qmult;
  div := Qdiv;
  neg := Qopp;
  lt := Qltb;
  ceil := Qceiling
}.

(** ** Binary64 arithmetic *)

Definition float_of_Z (z : Z) : float :=
  match z with
  | Z0 => PrimFloat.zero
  | Zpos _ => PrimFloat.of_uint63 (Uint63.of_Z z)
  | Zneg p => PrimFloat.opp (PrimFloat.of_uint63 (Uint63.of_Z (Zpos p)))
  end.

(** A decimal literal [n/d] with [n], [d] below [2^53] is read as the
    correctly rounded quotient, the binary64 value nearest to it. *)
Definition float_lit (q : Q) : float :=
  PrimFloat.div (float_of_Z (Qnum q)) (float_of_Z (Zpos (Qden q))).

Definition float_ceil (x : float) : Z :=
  match Prim2SF x with
  | S754_finite s m e =>
      let v := if s then Zneg m else Zpos m in
      match e with
      | Zneg k => (- ((- v) / Z.pow_pos 2 k))%Z
      | _ => (v * 2 ^ e)%Z
      end
  | _ => 0%Z
  end.

#[export] Instance PyNum_float : PyNum float := {
  lit := float_lit;
  add := PrimFloat.add;
  sub := PrimFloat.sub;
  mul := PrimFloat.mul;
  div := PrimFloat.div;
  neg := PrimFloat.opp;
  lt := PrimFloat.ltb;
  ceil := float_ceil
}.

(* ================================================================== *)
(** * Exceptions and sequences *)

Inductive exn : Type :=
| ValueError (msg : string)
| AttributeError (msg : string)
| IndexError (msg : string).

(** The outcome of a call: a value, a raised exception, or a [while] loop
    that is still running when the fuel is spent. *)
Inductive result (A : Type) : Type :=
| Ok (a : A)
| Raise (e : exn)
| OutOfFuel.

Arguments Raise {A} e.
Arguments OutOfFuel {A}.

Definition rbind {A B} (m : result A) (f : A -> result B) : result B :=
  match m with
  | Ok a => f a
  | Raise e => Raise e
  | OutOfFuel => OutOfFuel
  end.

Declare Scope result_scope.
Delimit Scope result_scope with result.
Notation "x <~ m ;; f" := (rbind m (fun x => f))
  (at level 61, m at next level, right associativity) : result_scope.

(** [l[i]] for [i >= 0] *)
Definition index {A} (l : list A) (i : nat) : result A :=
  match nth_error l i with
  | Some x => Ok x
  | None => Raise (IndexError "index out of bounds")
  end.

(** [l[-1]] *)
Definition index_last {A} (l : list A) : result A :=
  index l (List.length l - 1).

Section Numpy.
Context {T : Type} `{PyNum T}.
Local Open Scope py_scope.

(** builtin [min(a, b)]: the first argument unless the second is smaller *)
Definition py_min (a b : T) : T := if b <? a then b else a.

Definition np_maximum (a b : T) : T := if a >? b then a else b.
Definition np_minimum (a b : T) : T := if a <? b then a else b.

(** [np.clip(x, lo, hi)] is [minimum(maximum(x, lo), hi)] *)
Definition np_clip (x lo hi : T) : T := np_minimum (np_maximum x lo) hi.

(** [np.argmax]: the index of the first maximal entry *)
Fixpoint argmax_from (best_i : nat) (best : T) (i : nat) (l : list T) : nat :=
  match l with
  | [] => best_i
  | x :: r =>
      if best <? x then argmax_from i x (S i) r
      else argmax_from best_i best (S i) r
  end.

Definition np_argmax (l : list T) : result nat :=
  match l with
  | [] => Raise (ValueError "attempt to get an argmax of an empty sequence")
  | x :: r => Ok (argmax_from 0 x 1 r)
  end.

(** [np.where(l < threshold)[0]]: the indices of the entries below the
    threshold, in increasing order *)
Fixpoint where_lt_from (i : nat) (l : list T) (threshold : T) : list nat :=
  match l with
  | [] => []
  | x :: r =>
      if x <? threshold then i :: where_lt_from (S i) r threshold
      else where_lt_from (S i) r threshold
  end.

Definition np_where_lt (l : list T) (threshold : T) : list nat :=
  where_lt_from 0 l threshold.
End Numpy.

(* ================================================================== *)
(** * adaptive_control.py *)

Module StaticBeta.
Section Defs.
Context {T : Type} `{PyNum T}.

Record t : Type := { beta_0 : T }.

Definition init (beta_0 : T) : t := {| beta_0 := beta_0 |}.

Definition call (self : t) (time I : T) : T := beta_0 self.
End Defs.
Arguments t T : clear implicits.
End StaticBeta.

Module NonStationaryBeta.
Section Defs.
Context {T : Type} `{PyNum T}.
Local Open Scope py_scope.

Record t : Type := {
  beta_0 : T;
  intervention_time : T;
  intervention_reduction : T;
  rebound_time : option T;
  rebound_factor : T;
  beta_intervention : T;
  beta_rebound : T
}.

Definition init (beta_0 intervention_time intervention_reduction : T)
    (rebound_time : option T) (rebound_factor : T) : t :=
  let beta_intervention := beta_0 * (lit 1 - intervention_reduction) in
  {| beta_0 := beta_0;
     intervention_time := intervention_time;
     intervention_reduction := intervention_reduction;
     rebound_time := rebound_time;
     rebound_factor := rebound_factor;
     beta_intervention := beta_intervention;
     beta_rebound :=
       match rebound_time with
       | Some _ =>
           beta_intervention + (beta_0 - beta_intervention) * rebound_factor
       | None => beta_intervention
       end |}.

Definition call (self : t) (time I : T) : T :=
  if time <? intervention_time self then beta_0 self
  else if match rebound_time self with
          | None => true
          | Some rt => time <? rt
          end
       then beta_intervention self
       else beta_rebound self.
End Defs.
Arguments t T : clear implicits.
End NonStationaryBeta.

Module AdaptiveBeta.
Section Defs.
Context {T : Type} `{PyNum T}.
Local Open Scope py_scope.

Record t : Type := {
  beta_0 : T;
  upper_threshold : T;
  lower_threshold : T;
  reduction_factor : T;
  increase_factor : T;
  beta_min : T;
  beta_max : T;
  current_beta : T
}.

Definition init (beta_0 upper_threshold lower_threshold reduction_factor
    increase_factor beta_min beta_max : T) : t :=
  {| beta_0 := beta_0;
     upper_threshold := upper_threshold;
     lower_threshold := lower_threshold;
     reduction_factor := reduction_factor;
     increase_factor := increase_factor;
     beta_min := beta_min;
     beta_max := beta_max;
     current_beta := beta_0 |}.

Definition set_current_beta (self : t) (b : T) : t :=
  {| beta_0 := beta_0 self;
     upper_threshold := upper_threshold self;
     lower_threshold := lower_threshold self;
     reduction_factor := reduction_factor self;
     increase_factor := increase_factor self;
     beta_min := beta_min self;
     beta_max := beta_max self;
     current_beta := b |}.

(** The rate before the safety bounds are applied *)
Definition control (self : t) (I : T) : T :=
  if I >? upper_threshold self then
    current_beta self * (lit 1 - reduction_factor self)
  else if I <? lower_threshold self then
    current_beta self * (lit 1 + increase_factor self)
  else current_beta self.

(** [__call__]: the returned rate and the mutated object *)
Definition call (self : t) (time I : T) : T * t :=
  let b := np_clip (control self I) (beta_min self) (beta_max self) in
  (b, set_current_beta self b).

Definition reset (self : t) : t := set_current_beta self (beta_0 self).

(** The constructor's default arguments *)
Definition default : t :=
  init (lit (5#10)) (lit (15#100)) (lit (5#100)) (lit (4#10))
       (lit (2#10)) (lit (1#10)) (lit (7#10)).
End Defs.
Arguments t T : clear implicits.
End AdaptiveBeta.

(** A rate policy object: any of the three callables *)
Inductive beta_func (T : Type) : Type :=
| Static (b : StaticBeta.t T)
| NonStationary (b : NonStationaryBeta.t T)
| Adaptive (b : AdaptiveBeta.t T).

Arguments Static {T} b.
Arguments NonStationary {T} b.
Arguments Adaptive {T} b.

(* ================================================================== *)
(** * The integrator's view of the rate policy *)

Section Ode.
Context {T : Type} `{PyNum T}.
Local Open Scope py_scope.

(** The state vector [y = [S, I, R]] *)
Definition state : Type := (T * T * T)%type.
Definition S_of (y : state) : T := fst (fst y).
Definition I_of (y : state) : T := snd (fst y).
Definition R_of (y : state) : T := snd y.

(** A computation that may evaluate [beta_func(t, I)] and continue with the
    returned rate; nothing else of the policy is visible to it. *)
Inductive ode (A : Type) : Type :=
| Return (a : A)
| Beta (time I : T) (k : T -> ode A).

Fixpoint ode_bind {A B} (m : ode A) (f : A -> ode B) : ode B :=
  match m with
  | Return a => f a
  | Beta time i k => Beta time i (fun b => ode_bind (k b) f)
  end.

(** Run a computation against a stateful rate function *)
Fixpoint run_ode {A P} (beta : T -> T -> P -> T * P) (m : ode A) (p : P)
    : A * P :=
  match m with
  | Return a => (a, p)
  | Beta time i k => let (b, p') := beta time i p in run_ode beta (k b) p'
  end.

(** The rates handed to a computation, in call order (ghost) *)
Fixpoint rates_seen {A P} (beta : T -> T -> P -> T * P) (m : ode A) (p : P)
    : list T :=
  match m with
  | Return _ => []
  | Beta time i k =>
      let (b, p') := beta time i p in b :: rates_seen beta (k b) p'
  end.

(** [sir_derivatives(y, t, beta_func, gamma, current_I=None)]; the
    argument [beta_func] is the [Beta] effect *)
Definition sir_derivatives (y : state) (time : T) (gamma : T)
    (current_I : option T) : ode state :=
  let '(s, i, r) := y in
  let I_for_beta := match current_I with Some c => c | None => i end in
  Beta time I_for_beta (fun beta_t =>
    let dS_dt := (- beta_t) * s * i in
    let dI_dt := beta_t * s * i - gamma * i in
    let dR_dt := gamma * i in
    Return (dS_dt, dI_dt, dR_dt)).
End Ode.

Arguments state T : clear implicits.
Arguments ode T A : clear implicits.

Notation "x <- m ;; f" := (ode_bind m (fun x => f))
  (at level 61, m at next level, right associativity) : py_scope.

(** The signature of [solve_sir(t_span, y0, beta_func, gamma, dt)]: the time
    grid and the solution rows *)
Definition solver (T : Type) : Type :=
  T * T -> state T -> T -> T -> ode T (list T * list (state T)).

Section Heun.
Context {T : Type} `{PyNum T}.
Local Open Scope py_scope.

Definition axpy (a : T) (x y : state T) : state T :=
  (S_of y + a * S_of x, I_of y + a * I_of x, R_of y + a * R_of x).

Definition state_add (x y : state T) : state T :=
  (S_of x + S_of y, I_of x + I_of y, R_of x + R_of y).

(** [n] uniform steps from [time], then the end point *)
Fixpoint grid_from (n : nat) (time dt t_end : T) : list T :=
  match n with
  | O => [t_end]
  | S n' => time :: grid_from n' (time + dt) dt t_end
  end.

Definition time_grid (t_span : T * T) (dt : T) : list T :=
  let (t_start, t_end) := t_span in
  grid_from (Z.to_nat (ceil ((t_end - t_start) / dt))) t_start dt t_end.

Fixpoint heun_steps (y : state T) (time : T) (rest : list T) (gamma : T)
    : ode T (list (state T)) :=
  match rest with
  | [] => Return [y]
  | t' :: rest' =>
      let h := t' - time in
      k1 <- sir_derivatives y time gamma None ;;
      k2 <- sir_derivatives (axpy h k1 y) t' gamma None ;;
      ys <- heun_steps (axpy (lit (1#2) * h) (state_add k1 k2) y) t' rest'
              gamma ;;
      Return (y :: ys)
  end.

(** Modelled from the spec: the body of [solve_sir] is missing from
    [sir_model.py] (only its docstring is there).  Section 4.3 asks for a
    trajectory sampled at the fixed step [dt] over [[t_start, t_end]],
    inclusive of both endpoints, by any method of at least second order
    that obtains the rate from the policy at each evaluation; this is
    Heun's method on that grid, the first row being [y0]. *)
Definition solve_sir_heun : solver T :=
  fun t_span y0 gamma dt =>
    match time_grid t_span dt with
    | [] => Return ([], [])
    | t0 :: rest =>
        sol <- heun_steps y0 t0 rest gamma ;;
        Return (t0 :: rest, sol)
    end.
End Heun.

(* ================================================================== *)
(** * sir_model.py: summary statistics *)

Section Statistics.
Context {T : Type} `{PyNum T}.
Local Open Scope py_scope.

Record stats : Type := {
  peak_infection : T;
  peak_time : T;
  final_size : T;
  duration : T
}.

Definition compute_summary_statistics (t : list T)
    (solution : list (state T)) : result stats :=
  let I := map I_of solution in
  let R := map R_of solution in
  (peak_idx <~ np_argmax I ;;
   peak_infection <~ index I peak_idx ;;
   peak_time <~ index t peak_idx ;;
   final_size <~ index_last R ;;
   let threshold := lit (1#1000) * peak_infection in
   let duration_idx := np_where_lt (skipn peak_idx I) threshold in
   duration <~ match duration_idx with
               | d0 :: _ =>
                   td <~ index t (peak_idx + d0) ;;
                   t0 <~ index t 0 ;;
                   Ok (td - t0)
               | [] =>
                   tl <~ index_last t ;;
                   t0 <~ index t 0 ;;
                   Ok (tl - t0)
               end ;;
   Ok {| peak_infection := peak_infection;
         peak_time := peak_time;
         final_size := final_size;
         duration := duration |})%result.
End Statistics.

Arguments stats T : clear implicits.

(* ================================================================== *)
(** * simulation.py *)

Section Simulation.
Context {T : Type} `{PyNum T}.
Local Open Scope py_scope.

(** Computations over the (shared, mutable) policy object that may raise *)
Definition M (A : Type) : Type := beta_func T -> result A * beta_func T.

Definition ret {A} (a : A) : M A := fun p => (Ok a, p).

Definition bind {A B} (m : M A) (f : A -> M B) : M B :=
  fun p =>
    match m p with
    | (Ok a, p') => f a p'
    | (Raise e, p') => (Raise e, p')
    | (OutOfFuel, p') => (OutOfFuel, p')
    end.

Definition lift {A} (r : result A) : M A := fun p => (r, p).

Notation "x <- m ;;; f" := (bind m (fun x => f))
  (at level 61, m at next level, right associativity).

(** [beta_func(t, I)] *)
Definition call_beta (time I : T) (p : beta_func T) : T * beta_func T :=
  match p with
  | Static b => (StaticBeta.call b time I, p)
  | NonStationary b => (NonStationaryBeta.call b time I, p)
  | Adaptive b =>
      let (r, b') := AdaptiveBeta.call b time I in (r, Adaptive b')
  end.

(** [beta_func.reset()]: only [AdaptiveBeta] defines it *)
Definition reset_beta : M unit :=
  fun p =>
    match p with
    | Adaptive b => (Ok tt, Adaptive (AdaptiveBeta.reset b))
    | _ => (Raise (AttributeError "object has no attribute 'reset'"), p)
    end.

(** [beta_func.current_beta]: only [AdaptiveBeta] has it *)
Definition get_current_beta : M T :=
  fun p =>
    match p with
    | Adaptive b => (Ok (AdaptiveBeta.current_beta b), p)
    | _ => (Raise (AttributeError
                     "object has no attribute 'current_beta'"), p)
    end.

(** Run the integrator with the given rate callback *)
Definition integrate {A} (beta : T -> T -> beta_func T -> T * beta_func T)
    (m : ode T A) : M A :=
  fun p => let (a, p') := run_ode beta m p in (Ok a, p').

(** [[f(x) for x in l]] for a stateful [f] *)
Fixpoint map_M {A B} (f : A -> M B) (l : list A) : M (list B) :=
  match l with
  | [] => ret []
  | x :: r => y <- f x ;;; ys <- map_M f r ;;; ret (y :: ys)
  end.

(** The dictionary every driver returns *)
Record scenario : Type := {
  r_t : list T;
  r_S : list T;
  r_I : list T;
  r_R : list T;
  r_beta : list T;
  r_stats : stats T
}.

(** [np.column_stack([S, I, R])] of three columns of one length *)
Definition column_stack (cS cI cR : list T) : list (state T) :=
  combine (combine cS cI) cR.

Variable solve_sir : solver T.

Definition run_static_scenario (t_span : T * T) (y0 : state T)
    (gamma dt : T) : M scenario :=
  seg <- integrate call_beta (solve_sir t_span y0 gamma dt) ;;;
  let (t, solution) := (seg : list T * list (state T)) in
  beta_t <- map_M (fun ti p => let (b, p') := call_beta ti (lit 0) p in
                               (Ok b, p')) t ;;;
  stats <- lift (compute_summary_statistics t solution) ;;;
  ret {| r_t := t;
         r_S := map S_of solution;
         r_I := map I_of solution;
         r_R := map R_of solution;
         r_beta := beta_t;
         r_stats := stats |}.

Definition run_nonstationary_scenario (t_span : T * T) (y0 : state T)
    (gamma dt : T) : M scenario :=
  seg <- integrate call_beta (solve_sir t_span y0 gamma dt) ;;;
  let (t, solution) := (seg : list T * list (state T)) in
  beta_t <- map_M (fun ti p => let (b, p') := call_beta ti (lit 0) p in
                               (Ok b, p')) t ;;;
  stats <- lift (compute_summary_statistics t solution) ;;;
  ret {| r_t := t;
         r_S := map S_of solution;
         r_I := map I_of solution;
         r_R := map R_of solution;
         r_beta := beta_t;
         r_stats := stats |}.

(** The variables of the segment loop.  [segments] is ghost: the raw
    [(segment_t, segment_sol)] of every iteration so far, in order. *)
Record loop_vars : Type := {
  t_full : list T;
  S_full : list T;
  I_full : list T;
  R_full : list T;
  beta_full : list T;
  current_y : state T;
  current_t : T;
  segments : list (list T * list (state T))
}.

(** One iteration of the body of [while current_t < t_end] *)
Definition loop_body (t_end gamma control_interval dt : T) (v : loop_vars)
    : M loop_vars :=
  let next_t := py_min (current_t v + control_interval) t_end in
  let current_I := I_of (current_y v) in
  let beta_wrapper := fun (time I : T) => call_beta time current_I in
  seg <- integrate beta_wrapper
           (solve_sir (current_t v, next_t) (current_y v) gamma dt) ;;;
  let (segment_t, segment_sol) := (seg : list T * list (state T)) in
  current_beta <- get_current_beta ;;;
  let first := Nat.eqb (List.length (t_full v)) 0 in
  let seg_t := if first then segment_t else tl segment_t in
  let seg_sol := if first then segment_sol else tl segment_sol in
  let n := if first then List.length segment_t
           else (List.length segment_t - 1)%nat in
  last_y <- lift (index_last segment_sol) ;;;
  ret {| t_full := t_full v ++ seg_t;
         S_full := S_full v ++ map S_of seg_sol;
         I_full := I_full v ++ map I_of seg_sol;
         R_full := R_full v ++ map R_of seg_sol;
         beta_full := beta_full v ++ repeat current_beta n;
         current_y := last_y;
         current_t := next_t;
         segments := segments v ++ [seg] |}.

Fixpoint while_loop (fuel : nat) (t_end gamma control_interval dt : T)
    (v : loop_vars) : M loop_vars :=
  if current_t v <? t_end then
    match fuel with
    | O => lift OutOfFuel
    | S fuel' =>
        v' <- loop_body t_end gamma control_interval dt v ;;;
        while_loop fuel' t_end gamma control_interval dt v'
    end
  else ret v.

Definition run_adaptive_scenario (fuel : nat) (t_span : T * T)
    (y0 : state T) (gamma control_interval dt : T) : M scenario :=
  _ <- reset_beta ;;;
  let (t_start, t_end) := t_span in
  v <- while_loop fuel t_end gamma control_interval dt
         {| t_full := []; S_full := []; I_full := []; R_full := [];
            beta_full := []; current_y := y0; current_t := t_start;
            segments := [] |} ;;;
  let solution := column_stack (S_full v) (I_full v) (R_full v) in
  stats <- lift (compute_summary_statistics (t_full v) solution) ;;;
  ret {| r_t := t_full v;
         r_S := S_full v;
         r_I := I_full v;
         r_R := R_full v;
         r_beta := beta_full v;
         r_stats := stats |}.

Definition run_scenario (fuel : nat) (scenario_type : string)
    (t_span : T * T) (y0 : state T) (gamma control_interval dt : T)
    : M scenario :=
  if String.eqb scenario_type "static" then
    run_static_scenario t_span y0 gamma dt
  else if String.eqb scenario_type "nonstationary" then
    run_nonstationary_scenario t_span y0 gamma dt
  else if String.eqb scenario_type "adaptive" then
    run_adaptive_scenario fuel t_span y0 gamma control_interval dt
  else
    lift (Raise (ValueError ("Unknown scenario type: " ++ scenario_type))).
End Simulation.

Arguments M T : clear implicits.
Arguments scenario T : clear implicits.
Arguments loop_vars T : clear implicits.

(* ================================================================== *)
(** * Vocabulary of the properties *)

Section ConfigDefs.
Context {T : Type} `{PyNum T}.

(** Two policy objects that differ at most in [current_beta] *)
Definition same_config (p q : beta_func T) : Prop :=
  match p, q with
  | Static a, Static b => a = b
  | NonStationary a, NonStationary b => a = b
  | Adaptive a, Adaptive b => AdaptiveBeta.reset a = AdaptiveBeta.reset b
  | _, _ => False
  end.

Definition preserves {A} (m : M T A) : Prop :=
  forall p, same_config p (snd (m p)).

(** The loop variables on entry *)
Definition init_vars (t_start : T) (y0 : state T) : loop_vars T :=
  {| t_full := []; S_full := []; I_full := []; R_full := [];
     beta_full := []; current_y := y0; current_t := t_start;
     segments := [] |}.

(** The adaptive policy after a sequence of calls [(t, I)] *)
Definition call_many (self : AdaptiveBeta.t T) (calls : list (T * T))
    : AdaptiveBeta.t T :=
  fold_left (fun p c => snd (AdaptiveBeta.call p (fst c) (snd c))) calls self.

(** [m] keeps an invariant of the policy object, and what it returns
    satisfies [Post] *)
Definition triple {A} (Inv : beta_func T -> Prop) (m : M T A)
    (Post : A -> Prop) : Prop :=
  forall p, Inv p ->
    Inv (snd (m p)) /\ forall a, fst (m p) = Ok a -> Post a.

(** A property of every outcome of a computation, whatever rates the policy
    answers *)
Fixpoint ode_all {A} (P : A -> Prop) (m : ode T A) : Prop :=
  match m with
  | Return a => P a
  | Beta _ _ k => forall b, ode_all P (k b)
  end.
End ConfigDefs.

Section Integrated.
Context {T : Type} `{PyNum T}.
Variable solve_sir : solver T.
Variables t_end gamma control_interval dt : T.

End Integrated.



(** Strictly increasing times *)
Fixpoint increasing (l : list Q) : Prop :=
  match l with
  | a :: (b :: _) as r => a < b /\ increasing r
  | _ => True
  end.

(** What section 4.3 of the design asks of one integrated segment: one row
    per time, the grid runs strictly upwards from [t0] to [t1], and the first
    row is the initial state. *)
Definition segment_ok (t0 t1 : Q) (y0 : state Q)
    (seg : list Q * list (state Q)) : Prop :=
  List.length (snd seg) = List.length (fst seg) /\
  hd_error (fst seg) = Some t0 /\
  last (fst seg) t0 = t1 /\
  increasing (fst seg) /\
  hd_error (snd seg) = Some y0.

Definition solver_ok (solve_sir : solver Q) : Prop :=
  forall t0 t1 y0 gamma dt,
    t0 < t1 -> 0 < dt ->
    ode_all (segment_ok t0 t1 y0) (solve_sir (t0, t1) y0 gamma dt).

(** Concatenation that drops the first sample of every segment but the
    first *)
Definition stitch {A} (segs : list (list A)) : list A :=
  match segs with
  | [] => []
  | s :: r => s ++ flat_map (@tl A) r
  end.

(** Segments that follow one another from [(t, y)] to [(t', y')]: each
    starts at the time and in the state where the previous one ended. *)
Inductive chain (t : Q) (y : state Q)
  : list (list Q * list (state Q)) -> Q -> state Q -> Prop :=
| chain_nil : chain t y [] t y
| chain_snoc segs t1 y1 t2 seg :
    chain t y segs t1 y1 ->
    t1 < t2 ->
    segment_ok t1 t2 y1 seg ->
    chain t y (segs ++ [seg]) t2 (last (snd seg) y1).

(** The invariant of the segment loop *)
Definition loop_inv (t_start : Q) (y0 : state Q) (v : loop_vars Q) : Prop :=
  chain t_start y0 (segments v) (current_t v) (current_y v) /\
  t_full v = stitch (map fst (segments v)) /\
  S_full v = map S_of (stitch (map snd (segments v))) /\
  I_full v = map I_of (stitch (map snd (segments v))) /\
  R_full v = map R_of (stitch (map snd (segments v))) /\
  List.length (beta_full v) = List.length (t_full v).

(** A segment that starts at a checkpoint [a < t_end] and ends at the next
    one, [min(a + control_interval, t_end)] *)
Definition paced (control_interval t_end : Q)
    (seg : list Q * list (state Q)) : Prop :=
  exists a, hd_error (fst seg) = Some a /\ a < t_end /\
            last (fst seg) a = py_min (a + control_interval) t_end.

(** [ceil((t_end - t) / control_interval)] as a count *)
Definition iterations (t t_end control_interval : Q) : nat :=
  Z.to_nat (Qceiling ((t_end - t) / control_interval)).

(* ================================================================== *)
(** * Properties *)

(** ** Exact comparisons *)

Lemma Qltb_lt (a b : Q) : Qltb a b = true <-> a < b.
Proof. unfold Qltb, Qlt. apply Z.ltb_lt. Qed.

Lemma Qltb_ge (a b : Q) : Qltb a b = false <-> b <= a.
Proof. unfold Qltb, Qle. rewrite Z.ltb_ge. reflexivity. Qed.

Lemma Qltb_irrefl (a b : Q) : a == b -> Qltb a b = false.
Proof. intros E. apply Qltb_ge. rewrite E. apply Qle_refl. Qed.

Ltac qnum := cbn [lit add sub mul div neg lt ceil PyNum_Q] in *.

Ltac qcases :=
  repeat match goal with
    | |- context [Qltb ?a ?b] =>
        let E := fresh "E" in
        destruct (Qltb a b) eqn:E;
        [apply Qltb_lt in E | apply Qltb_ge in E]
    end.

Lemma np_clip_Q (x lo hi : Q) :
  lo <= hi ->
  (x < lo -> np_clip x lo hi == lo) /\
  (hi < x -> np_clip x lo hi == hi) /\
  (lo <= x <= hi -> np_clip x lo hi == x) /\
  lo <= np_clip x lo hi <= hi.
Proof.
  intros Hb. unfold np_clip, np_minimum, np_maximum. qnum.
  destruct (Qltb lo x) eqn:E1;
    [apply Qltb_lt in E1 | apply Qltb_ge in E1];
    qcases; repeat split; intros; lra.
Qed.

(** ** The adaptive policy *)

Lemma adaptive_call_in_bounds (self : AdaptiveBeta.t Q) (time I : Q) :
  AdaptiveBeta.beta_min self <= AdaptiveBeta.beta_max self ->
  AdaptiveBeta.beta_min self
    <= AdaptiveBeta.current_beta (snd (AdaptiveBeta.call self time I))
    <= AdaptiveBeta.beta_max self.
Proof.
  intros Hb. unfold AdaptiveBeta.call.
  cbn [snd AdaptiveBeta.current_beta AdaptiveBeta.set_current_beta].
  now apply np_clip_Q.
Qed.

(** C2.  One evaluation [rate(t, I)] of the adaptive policy with current rate
    [b]: above the upper threshold the rate before the bounds is
    [b * (1 - reduction_factor)], else below the lower threshold it is
    [b * (1 + increase_factor)], else it is [b]; what is returned is what is
    stored, and it is that value clamped to [[beta_min, beta_max]]; the
    configuration is untouched. *)
Theorem adaptive_call_spec (self : AdaptiveBeta.t Q) (time I : Q) :
  let b := AdaptiveBeta.current_beta self in
  let pre := AdaptiveBeta.control self I in
  let out := fst (AdaptiveBeta.call self time I) in
  let self' := snd (AdaptiveBeta.call self time I) in
  (AdaptiveBeta.upper_threshold self < I ->
     pre = b * (1 - AdaptiveBeta.reduction_factor self)) /\
  (~ AdaptiveBeta.upper_threshold self < I ->
   I < AdaptiveBeta.lower_threshold self ->
     pre = b * (1 + AdaptiveBeta.increase_factor self)) /\
  (~ AdaptiveBeta.upper_threshold self < I ->
   ~ I < AdaptiveBeta.lower_threshold self ->
     pre = b) /\
  AdaptiveBeta.current_beta self' = out /\
  self' = AdaptiveBeta.set_current_beta self out /\
  out = np_clip pre (AdaptiveBeta.beta_min self) (AdaptiveBeta.beta_max self) /\
  (AdaptiveBeta.beta_min self <= AdaptiveBeta.beta_max self ->
     (pre < AdaptiveBeta.beta_min self -> out == AdaptiveBeta.beta_min self) /\
     (AdaptiveBeta.beta_max self < pre -> out == AdaptiveBeta.beta_max self) /\
     (AdaptiveBeta.beta_min self <= pre <= AdaptiveBeta.beta_max self ->
        out == pre) /\
     AdaptiveBeta.beta_min self <= out <= AdaptiveBeta.beta_max self).
Proof.
  cbv zeta. unfold AdaptiveBeta.control, AdaptiveBeta.call. qnum.
  cbn [fst snd AdaptiveBeta.current_beta AdaptiveBeta.set_current_beta].
  repeat split; try reflexivity.
  - intros Hu. apply Qltb_lt in Hu. rewrite Hu. reflexivity.
  - intros Hu Hl. apply Qnot_lt_le, Qltb_ge in Hu. apply Qltb_lt in Hl.
    rewrite Hu, Hl. reflexivity.
  - intros Hu Hl. apply Qnot_lt_le, Qltb_ge in Hu.
    apply Qnot_lt_le, Qltb_ge in Hl. rewrite Hu, Hl. reflexivity.
  - intros; now apply np_clip_Q.
  - intros; now apply np_clip_Q.
  - intros; now apply np_clip_Q.
  - now apply np_clip_Q.
  - now apply np_clip_Q.
Qed.

Lemma adaptive_call_spec_witness :
  let self : AdaptiveBeta.t Q := AdaptiveBeta.default in
  AdaptiveBeta.upper_threshold self < 2#10 /\
  AdaptiveBeta.control self (2#10) =
    AdaptiveBeta.current_beta self * (1 - AdaptiveBeta.reduction_factor self).
Proof.
  cbv zeta. split; [reflexivity |].
  apply (adaptive_call_spec AdaptiveBeta.default 0 (2#10)). reflexivity.
Defined.

(** C10.  [reset()] stores exactly the configured [beta_0], without the
    clamp: when [beta_0] lies outside [[beta_min, beta_max]] the current rate
    lies outside the bounds right after the reset, and it is the next rate
    evaluation that brings it back inside. *)
Theorem reset_keeps_beta_0_unclamped (self : AdaptiveBeta.t Q) (time I : Q) :
  AdaptiveBeta.beta_0 self < AdaptiveBeta.beta_min self \/
  AdaptiveBeta.beta_max self < AdaptiveBeta.beta_0 self ->
  let r := AdaptiveBeta.reset self in
  AdaptiveBeta.current_beta r = AdaptiveBeta.beta_0 self /\
  r = AdaptiveBeta.set_current_beta self (AdaptiveBeta.beta_0 self) /\
  (AdaptiveBeta.current_beta r < AdaptiveBeta.beta_min r \/
   AdaptiveBeta.beta_max r < AdaptiveBeta.current_beta r) /\
  (AdaptiveBeta.beta_min self <= AdaptiveBeta.beta_max self ->
   let r' := snd (AdaptiveBeta.call r time I) in
   AdaptiveBeta.beta_min r <= AdaptiveBeta.current_beta r'
     <= AdaptiveBeta.beta_max r).
Proof.
  intros Hout. cbv zeta.
  split; [reflexivity |]. split; [reflexivity |]. split; [exact Hout |].
  intros Hb. apply (adaptive_call_in_bounds (AdaptiveBeta.reset self)).
  exact Hb.
Qed.

Lemma reset_keeps_beta_0_unclamped_witness :
  let self : AdaptiveBeta.t Q :=
    AdaptiveBeta.init (9#10) (15#100) (5#100) (4#10) (2#10) (1#10) (7#10) in
  AdaptiveBeta.current_beta (AdaptiveBeta.reset self) = 9#10 /\
  AdaptiveBeta.beta_max self
    < AdaptiveBeta.current_beta (AdaptiveBeta.reset self).
Proof.
  cbv zeta. split; [reflexivity |].
  refine (match proj1 (proj2 (proj2
            (@reset_keeps_beta_0_unclamped
               (AdaptiveBeta.init (9#10) (15#100) (5#100) (4#10) (2#10)
                  (1#10) (7#10)) 0 0 _)))
          with
          | or_introl Hlt => _
          | or_intror Hgt => Hgt
          end).
  - right. reflexivity.
  - exfalso. revert Hlt. vm_compute. discriminate.
Defined.

(** C1.  Repeated evaluation within one control interval is not idempotent
    in the code: every call of the adaptive policy compounds the factor.
    With the default policy and the frozen level [I = 0.2] above the upper
    threshold, the first call returns [0.3] and the second [0.18]; on the
    one-step segment [(0, 1)] the integrator's two evaluations see these two
    rates, and the driver records the second one for the whole segment.  In
    binary64 the second call likewise returns less than the first. *)
Theorem adaptive_call_compounds :
  let p0 : AdaptiveBeta.t Q := AdaptiveBeta.default in
  let c1 := AdaptiveBeta.call p0 0 (2#10) in
  let c2 := AdaptiveBeta.call (snd c1) 0 (2#10) in
  fst c1 == 3#10 /\ fst c2 == 18#100 /\
  ~ fst c2 == fst c1 /\
  ~ AdaptiveBeta.current_beta (snd c2) == AdaptiveBeta.current_beta (snd c1) /\
  let y0 : state Q := (8#10, 2#10, 0) in
  map Qred (rates_seen (fun time _ => call_beta time (I_of y0))
              (solve_sir_heun (0, 1) y0 (1#10) 1) (Adaptive p0))
    = [3#10; 9#50] /\
  match fst (run_adaptive_scenario solve_sir_heun 1 (0, 1) y0 (1#10) 1 1
               (Adaptive p0)) with
  | Ok r => map Qred (r_beta r) = [9#50; 9#50]
  | _ => False
  end /\
  let f0 : AdaptiveBeta.t float := AdaptiveBeta.default in
  let d1 := AdaptiveBeta.call f0 (lit 0) (lit (2#10)) in
  let d2 := AdaptiveBeta.call (snd d1) (lit 0) (lit (2#10)) in
  fst d1 = lit (3#10) /\ lt (fst d2) (fst d1) = true.
Proof.
  cbv zeta.
  split; [vm_compute; reflexivity |].
  split; [vm_compute; reflexivity |].
  split; [vm_compute; discriminate |].
  split; [vm_compute; discriminate |].
  split; [vm_compute; reflexivity |].
  split; [vm_compute; reflexivity |].
  split; vm_compute; reflexivity.
Qed.

(** ** The scheduled policy *)

Lemma float_one_minus_0_6 :
  PrimFloat.sub (float_lit 1) (float_lit (6#10)) = float_lit (4#10).
Proof. reflexivity. Qed.

(** C3.  The phases of the scheduled policy are half-open: before
    [intervention_time] the rate is [beta_0]; from [intervention_time] on
    (the instant itself included) it is the intervention rate, until
    [rebound_time], from which on (the instant itself included) it is the
    rebound rate.  With [intervention_time = 50] and
    [intervention_reduction = 0.6], [rate(49.9, I)] is [beta_0] and
    [rate(50.0, I)] is [beta_0 * 0.4], in exact and in binary64 arithmetic. *)
Theorem scheduled_half_open (p : NonStationaryBeta.t Q) (time I : Q) :
  (time < NonStationaryBeta.intervention_time p ->
     NonStationaryBeta.call p time I = NonStationaryBeta.beta_0 p) /\
  (NonStationaryBeta.intervention_time p <= time ->
   NonStationaryBeta.rebound_time p = None ->
     NonStationaryBeta.call p time I = NonStationaryBeta.beta_intervention p) /\
  (forall rt, NonStationaryBeta.rebound_time p = Some rt ->
     NonStationaryBeta.intervention_time p <= time -> time < rt ->
     NonStationaryBeta.call p time I = NonStationaryBeta.beta_intervention p) /\
  (forall rt, NonStationaryBeta.rebound_time p = Some rt ->
     NonStationaryBeta.intervention_time p <= time -> rt <= time ->
     NonStationaryBeta.call p time I = NonStationaryBeta.beta_rebound p) /\
  (time == NonStationaryBeta.intervention_time p ->
     NonStationaryBeta.call p time I =
       match NonStationaryBeta.rebound_time p with
       | None => NonStationaryBeta.beta_intervention p
       | Some rt => if Qltb time rt then NonStationaryBeta.beta_intervention p
                    else NonStationaryBeta.beta_rebound p
       end) /\
  (forall beta_0 : Q,
     let q := NonStationaryBeta.init beta_0 50 (6#10) None (5#10) in
     NonStationaryBeta.call q (499#10) I = beta_0 /\
     NonStationaryBeta.call q 50 I = beta_0 * (4#10)) /\
  (forall beta_0 J : float,
     let q := NonStationaryBeta.init beta_0 (lit 50) (lit (6#10)) None
                (lit (5#10)) in
     NonStationaryBeta.call q (lit (499#10)) J = beta_0 /\
     NonStationaryBeta.call q (lit 50) J = PrimFloat.mul beta_0 (lit (4#10))).
Proof.
  unfold NonStationaryBeta.call. qnum.
  split; [| split; [| split; [| split; [| split; [| split]]]]].
  - intros Hlt. apply Qltb_lt in Hlt. now rewrite Hlt.
  - intros Hge Hn. apply Qltb_ge in Hge. now rewrite Hge, Hn.
  - intros rt Hrt Hge Hlt. apply Qltb_ge in Hge. apply Qltb_lt in Hlt.
    now rewrite Hge, Hrt, Hlt.
  - intros rt Hrt Hge Hle. apply Qltb_ge in Hge. apply Qltb_ge in Hle.
    now rewrite Hge, Hrt, Hle.
  - intros Heq. rewrite (Qltb_irrefl Heq).
    destruct (NonStationaryBeta.rebound_time p); reflexivity.
  - intros beta_0. cbv zeta. split; reflexivity.
  - intros beta_0 J. cbv zeta. split; [reflexivity |].
    change (PrimFloat.mul beta_0
              (PrimFloat.sub (float_lit 1) (float_lit (6#10)))
            = PrimFloat.mul beta_0 (float_lit (4#10))).
    now rewrite float_one_minus_0_6.
Qed.

Lemma scheduled_half_open_witness :
  let p : NonStationaryBeta.t Q :=
    NonStationaryBeta.init (5#10) 50 (6#10) (Some 100) (5#10) in
  NonStationaryBeta.call p (499#10) 0 = 5#10 /\
  NonStationaryBeta.call p 50 0 = NonStationaryBeta.beta_intervention p /\
  NonStationaryBeta.call p 100 0 = NonStationaryBeta.beta_rebound p.
Proof.
  cbv zeta.
  pose (p := NonStationaryBeta.init (T:=Q) (5#10) 50 (6#10) (Some 100) (5#10)).
  split; [| split].
  - apply (proj1 (scheduled_half_open p (499#10) 0)). reflexivity.
  - apply (proj1 (proj2 (proj2 (scheduled_half_open p 50 0))) 100).
    + reflexivity.
    + vm_compute. discriminate.
    + reflexivity.
  - apply (proj1 (proj2 (proj2 (proj2 (scheduled_half_open p 100 0)))) 100).
    + reflexivity.
    + vm_compute. discriminate.
    + vm_compute. discriminate.
Defined.

(** ** The scenario facade *)

(** C6 (as the code has it).  [run_scenario] accepts exactly the kinds
    ['static'], ['nonstationary'] (the scheduled policy's driver) and
    ['adaptive'], handing each to its driver unchanged; every other kind
    raises [ValueError] and leaves the policy object as it was. *)
Theorem run_scenario_dispatch (T : Type) (N : PyNum T) (solve_sir : solver T)
    (fuel : nat) (scenario_type : string) (t_span : T * T) (y0 : state T)
    (gamma control_interval dt : T) (p : beta_func T) :
  (scenario_type = "static"%string ->
     run_scenario solve_sir fuel scenario_type t_span y0 gamma
       control_interval dt p
     = run_static_scenario solve_sir t_span y0 gamma dt p) /\
  (scenario_type = "nonstationary"%string ->
     run_scenario solve_sir fuel scenario_type t_span y0 gamma
       control_interval dt p
     = run_nonstationary_scenario solve_sir t_span y0 gamma dt p) /\
  (scenario_type = "adaptive"%string ->
     run_scenario solve_sir fuel scenario_type t_span y0 gamma
       control_interval dt p
     = run_adaptive_scenario solve_sir fuel t_span y0 gamma
         control_interval dt p) /\
  (scenario_type <> "static"%string ->
   scenario_type <> "nonstationary"%string ->
   scenario_type <> "adaptive"%string ->
     run_scenario solve_sir fuel scenario_type t_span y0 gamma
       control_interval dt p
     = (Raise (ValueError ("Unknown scenario type: " ++ scenario_type)), p)).
Proof.
  unfold run_scenario.
  split; [| split; [| split]].
  - intros ->. reflexivity.
  - intros ->. reflexivity.
  - intros ->. reflexivity.
  - intros H1 H2 H3.
    apply String.eqb_neq in H1, H2, H3. rewrite H1, H2, H3. reflexivity.
Qed.

Lemma run_scenario_dispatch_witness :
  let p : beta_func Q := Static (StaticBeta.init (5#10)) in
  run_scenario solve_sir_heun 0 "sir"%string (0, 1) (99#100, 1#100, 0)
    (1#10) 5 (1#10) p
  = (Raise (ValueError "Unknown scenario type: sir"), p).
Proof.
  cbv zeta.
  apply (proj2 (proj2 (proj2
           (@run_scenario_dispatch Q _ solve_sir_heun 0 "sir"%string (0, 1)
              (99#100, 1#100, 0) (1#10) 5 (1#10)
              (Static (StaticBeta.init (5#10)))))));
    discriminate.
Defined.

(** C6 (as the spec words it) fails on the kind named [scheduled]: the code
    rejects it, while the scheduled policy runs under ['nonstationary']. *)
Lemma scheduled_kind_rejected :
  let p : beta_func Q :=
    NonStationary (NonStationaryBeta.init (5#10) 50 (6#10) None (5#10)) in
  let y0 : state Q := (99#100, 1#100, 0) in
  run_scenario solve_sir_heun 0 "scheduled"%string (0, 1) y0 (1#10) 5 1 p
    = (Raise (ValueError "Unknown scenario type: scheduled"), p) /\
  match fst (run_scenario solve_sir_heun 0 "nonstationary"%string (0, 1) y0
               (1#10) 5 1 p) with
  | Ok r => r_t r = [0; 1]
  | _ => False
  end.
Proof.
  cbv zeta. split; vm_compute; reflexivity.
Qed.

(** ** Reset and reruns *)

Section Config.
Context {T : Type} `{PyNum T}.

Lemma same_config_refl (p : beta_func T) : same_config p p.
Proof. destruct p; reflexivity. Qed.

Lemma same_config_trans (p q r : beta_func T) :
  same_config p q -> same_config q r -> same_config p r.
Proof.
  destruct p, q, r; cbn; try contradiction; intros; congruence.
Qed.

Lemma call_beta_config (time I : T) (p : beta_func T) :
  same_config p (snd (call_beta time I p)).
Proof. destruct p; reflexivity. Qed.

Lemma reset_beta_config : preserves (T:=T) reset_beta.
Proof. intros [b | b | b]; reflexivity. Qed.

Lemma reset_beta_stale (p q : beta_func T) :
  same_config p q -> reset_beta p = reset_beta q.
Proof.
  destruct p, q; cbn; try contradiction; intros E; rewrite E; reflexivity.
Qed.

Lemma run_ode_config {A} (beta : T -> T -> beta_func T -> T * beta_func T)
    (m : ode T A) :
  (forall time I p, same_config p (snd (beta time I p))) ->
  forall p, same_config p (snd (run_ode beta m p)).
Proof.
  intros Hb. induction m as [a | time i k IH]; intros p; cbn.
  - apply same_config_refl.
  - specialize (Hb time i p). destruct (beta time i p) as [b p']. cbn in Hb.
    eapply same_config_trans; [exact Hb | apply IH].
Qed.

Lemma ret_config {A} (a : A) : preserves (T:=T) (ret a).
Proof. intros p. apply same_config_refl. Qed.

Lemma lift_config {A} (r : result A) : preserves (T:=T) (lift r).
Proof. intros p. apply same_config_refl. Qed.

Lemma bind_config {A B} (m : M T A) (f : A -> M T B) :
  preserves m -> (forall a, preserves (f a)) -> preserves (bind m f).
Proof.
  intros Hm Hf p. unfold bind. specialize (Hm p).
  destruct (m p) as [[a | e |] p']; cbn in *; try assumption.
  eapply same_config_trans; [exact Hm | apply Hf].
Qed.

Lemma integrate_config {A}
    (beta : T -> T -> beta_func T -> T * beta_func T) (m : ode T A) :
  (forall time I p, same_config p (snd (beta time I p))) ->
  preserves (integrate beta m).
Proof.
  intros Hb p. unfold integrate.
  pose proof (run_ode_config beta m Hb p) as Hr.
  destruct (run_ode beta m p). exact Hr.
Qed.

Lemma get_current_beta_config : preserves (T:=T) get_current_beta.
Proof. intros [b | b | b]; cbn; reflexivity. Qed.

Lemma loop_body_config (solve_sir : solver T)
    (t_end gamma control_interval dt : T) (v : loop_vars T) :
  preserves (loop_body solve_sir t_end gamma control_interval dt v).
Proof.
  unfold loop_body. apply bind_config.
  - apply integrate_config. intros; apply call_beta_config.
  - intros [segment_t segment_sol]. apply bind_config.
    + apply get_current_beta_config.
    + intros cb. apply bind_config; [apply lift_config |].
      intros y. apply ret_config.
Qed.

Lemma while_loop_config (solve_sir : solver T) (fuel : nat)
    (t_end gamma control_interval dt : T) (v : loop_vars T) :
  preserves (while_loop solve_sir fuel t_end gamma control_interval dt v).
Proof.
  revert v. induction fuel as [| fuel IH]; intros v; cbn;
    destruct (lt (current_t v) t_end);
    try apply ret_config; try apply lift_config.
  apply bind_config; [apply loop_body_config | exact IH].
Qed.

Lemma run_adaptive_scenario_config (solve_sir : solver T) (fuel : nat)
    (t_span : T * T) (y0 : state T) (gamma control_interval dt : T) :
  preserves (run_adaptive_scenario solve_sir fuel t_span y0 gamma
               control_interval dt).
Proof.
  unfold run_adaptive_scenario. apply bind_config; [apply reset_beta_config |].
  intros _. destruct t_span as [t_start t_end].
  apply bind_config; [apply while_loop_config |].
  intros v. apply bind_config; [apply lift_config |].
  intros st. apply ret_config.
Qed.

Lemma run_adaptive_scenario_stale (solve_sir : solver T) (fuel : nat)
    (t_span : T * T) (y0 : state T) (gamma control_interval dt : T)
    (p q : beta_func T) :
  same_config p q ->
  run_adaptive_scenario solve_sir fuel t_span y0 gamma control_interval dt p
  = run_adaptive_scenario solve_sir fuel t_span y0 gamma control_interval dt q.
Proof.
  intros E. unfold run_adaptive_scenario, bind.
  rewrite (reset_beta_stale p q E). reflexivity.
Qed.
End Config.

(** C8.  The adaptive driver resets the policy first, so its outcome does
    not depend on the rate a previous run left behind: for any stale
    [current_beta] the run is the same, and running again with the policy
    object as the first run left it yields the very same trajectory (and
    leaves the object in the same state).  This holds for every number type,
    binary64 included, and every integrator. *)
Theorem adaptive_rerun_identical (T : Type) (N : PyNum T)
    (solve_sir : solver T) (fuel : nat) (t_span : T * T) (y0 : state T)
    (gamma control_interval dt : T) (p : beta_func T)
    (b : AdaptiveBeta.t T) (stale : T) :
  let run := run_adaptive_scenario solve_sir fuel t_span y0 gamma
               control_interval dt in
  run (snd (run p)) = run p /\
  run (Adaptive (AdaptiveBeta.set_current_beta b stale)) = run (Adaptive b).
Proof.
  cbv zeta. split.
  - symmetry. apply run_adaptive_scenario_stale.
    apply run_adaptive_scenario_config.
  - apply run_adaptive_scenario_stale. reflexivity.
Qed.

(** ** Summary statistics *)

Lemma index_Some {A} (l : list A) (i : nat) (x : A) :
  nth_error l i = Some x -> index l i = Ok x.
Proof. unfold index. now intros ->. Qed.

Lemma argmax_from_spec (l pre : list Q) (best_i : nat) (best : Q) :
  nth_error pre best_i = Some best ->
  (forall j x, nth_error pre j = Some x -> x <= best) ->
  (forall j x, (j < best_i)%nat -> nth_error pre j = Some x -> x < best) ->
  exists m,
    nth_error (pre ++ l) (argmax_from best_i best (List.length pre) l)
      = Some m /\
    (forall j x, nth_error (pre ++ l) j = Some x -> x <= m) /\
    (forall j x, (j < argmax_from best_i best (List.length pre) l)%nat ->
       nth_error (pre ++ l) j = Some x -> x < m).
Proof.
  revert pre best_i best.
  induction l as [| x l IH]; intros pre best_i best Hb Hle Hlt.
  - cbn. rewrite app_nil_r. exists best. auto.
  - assert (Hbi : (best_i < List.length pre)%nat).
    { apply nth_error_Some. rewrite Hb. discriminate. }
    cbn [argmax_from]. qnum.
    replace (pre ++ x :: l) with ((pre ++ [x]) ++ l)
      by (rewrite <- app_assoc; reflexivity).
    replace (S (List.length pre)) with (List.length (pre ++ [x]))
      by (rewrite length_app; cbn; lia).
    destruct (Qltb best x) eqn:E;
      [apply Qltb_lt in E | apply Qltb_ge in E]; apply IH.
    + rewrite nth_error_app2 by lia. rewrite Nat.sub_diag. reflexivity.
    + intros j z Hj. destruct (Nat.lt_ge_cases j (List.length pre)) as [L | L].
      * rewrite nth_error_app1 in Hj by exact L.
        apply Qlt_le_weak. eapply Qle_lt_trans; [eapply Hle; eauto | exact E].
      * rewrite nth_error_app2 in Hj by exact L.
        destruct (j - List.length pre)%nat as [| k]; cbn in Hj.
        -- injection Hj as <-. apply Qle_refl.
        -- destruct k; discriminate.
    + intros j z Hj Hz. rewrite nth_error_app1 in Hz by exact Hj.
      eapply Qle_lt_trans; [eapply Hle; eauto | exact E].
    + rewrite nth_error_app1 by exact Hbi. exact Hb.
    + intros j z Hj. destruct (Nat.lt_ge_cases j (List.length pre)) as [L | L].
      * rewrite nth_error_app1 in Hj by exact L. eapply Hle; eauto.
      * rewrite nth_error_app2 in Hj by exact L.
        destruct (j - List.length pre)%nat as [| k]; cbn in Hj.
        -- injection Hj as <-. exact E.
        -- destruct k; discriminate.
    + intros j z Hj Hz. rewrite nth_error_app1 in Hz by lia. eapply Hlt; eauto.
Qed.

Lemma np_argmax_spec (l : list Q) :
  l <> [] ->
  exists peak_idx m,
    np_argmax l = Ok peak_idx /\
    nth_error l peak_idx = Some m /\
    (forall j x, nth_error l j = Some x -> x <= m) /\
    (forall j x, (j < peak_idx)%nat -> nth_error l j = Some x -> x < m).
Proof.
  destruct l as [| x l]; [congruence | intros _].
  destruct (@argmax_from_spec l [x] 0 x) as (m & H1 & H2 & H3).
  - reflexivity.
  - intros [| [| j]] z Hz; try discriminate. injection Hz as <-.
    apply Qle_refl.
  - intros j z Hj. lia.
  - exists (argmax_from 0 x 1 l), m. cbn in *. auto.
Qed.

Lemma where_lt_from_spec (l : list Q) (i : nat) (threshold : Q) :
  match where_lt_from i l threshold with
  | [] => forall j y, nth_error l j = Some y -> ~ y < threshold
  | d :: _ =>
      exists k y, d = (i + k)%nat /\ nth_error l k = Some y /\
        y < threshold /\
        forall j z, (j < k)%nat -> nth_error l j = Some z -> ~ z < threshold
  end.
Proof.
  revert i. induction l as [| x l IH]; intros i; cbn [where_lt_from].
  - intros [| j] y Hy; discriminate.
  - qnum. destruct (Qltb x threshold) eqn:E;
      [apply Qltb_lt in E | apply Qltb_ge in E].
    + exists 0%nat, x. repeat split; auto with arith. intros j z Hj. lia.
    + specialize (IH (S i)).
      destruct (where_lt_from (S i) l threshold) as [| d ds].
      * intros [| j] y Hy; cbn in Hy.
        -- injection Hy as <-. now apply Qle_not_lt.
        -- eapply IH; eauto.
      * destruct IH as (k & y & Hd & Hk & Hy & Hbefore).
        exists (S k), y. repeat split; auto; try lia.
        intros [| j] z Hj Hz; cbn in Hz.
        -- injection Hz as <-. now apply Qle_not_lt.
        -- eapply Hbefore; eauto. lia.
Qed.

Lemma nth_error_last {A} (l : list A) :
  l <> [] -> exists x, nth_error l (List.length l - 1) = Some x.
Proof.
  intros Hl. destruct (nth_error l (List.length l - 1)) eqn:E; eauto.
  apply nth_error_None in E. destruct l; [congruence | cbn in E; lia].
Qed.

(** The statistics of a trajectory with one row per time, spelled out *)
Lemma summary_statistics_correct (t : list Q) (solution : list (state Q)) :
  solution <> [] ->
  List.length t = List.length solution ->
  exists st peak_idx,
    compute_summary_statistics t solution = Ok st /\
    nth_error (map I_of solution) peak_idx = Some (peak_infection st) /\
    (forall j x, nth_error (map I_of solution) j = Some x ->
       x <= peak_infection st) /\
    (forall j x, (j < peak_idx)%nat ->
       nth_error (map I_of solution) j = Some x -> x < peak_infection st) /\
    nth_error t peak_idx = Some (peak_time st) /\
    nth_error (map R_of solution) (List.length solution - 1)
      = Some (final_size st) /\
    ((exists k x tk t0,
        (peak_idx <= k)%nat /\
        nth_error (map I_of solution) k = Some x /\
        x < (1#1000) * peak_infection st /\
        (forall j z, (peak_idx <= j < k)%nat ->
           nth_error (map I_of solution) j = Some z ->
           ~ z < (1#1000) * peak_infection st) /\
        nth_error t k = Some tk /\ nth_error t 0 = Some t0 /\
        duration st = tk - t0)
     \/
     ((forall j z, (peak_idx <= j)%nat ->
         nth_error (map I_of solution) j = Some z ->
         ~ z < (1#1000) * peak_infection st) /\
      exists tl t0,
        nth_error t (List.length t - 1) = Some tl /\
        nth_error t 0 = Some t0 /\
        duration st = tl - t0)).
Proof.
  intros Hne Hlen.
  assert (HI : map I_of solution <> []) by (destruct solution; cbn; congruence).
  destruct (np_argmax_spec HI) as (p & m & Hp & Hm & Hmax & Hfirst).
  assert (Hpl : (p < List.length t)%nat).
  { rewrite Hlen, <- (length_map I_of). apply nth_error_Some. rewrite Hm.
    discriminate. }
  destruct (nth_error t p) as [tp |] eqn:Etp;
    [| apply nth_error_None in Etp; lia].
  assert (HR : map R_of solution <> []) by (destruct solution; cbn; congruence).
  destruct (nth_error_last HR) as (fs & Hfs).
  assert (Ht : t <> []) by (destruct t; cbn in *; [lia | congruence]).
  destruct (nth_error_last Ht) as (tl & Htl).
  destruct (nth_error t 0) as [t0 |] eqn:Et0;
    [| apply nth_error_None in Et0; lia].
  unfold compute_summary_statistics. rewrite Hp. cbn [rbind].
  rewrite (index_Some _ _ Hm), (index_Some _ _ Etp). cbn [rbind].
  unfold index_last. rewrite (index_Some _ _ Hfs). cbn [rbind].
  rewrite (index_Some _ _ Htl), (index_Some _ _ Et0). cbn [rbind].
  unfold np_where_lt. qnum.
  pose proof (where_lt_from_spec (skipn p (map I_of solution)) 0
                ((1#1000) * m)) as Hw.
  destruct (where_lt_from 0 (skipn p (map I_of solution)) ((1#1000) * m))
    as [| d ds].
  - eexists _, p. split; [reflexivity |]. cbn.
    rewrite length_map in Hfs.
    repeat (split; [assumption |]).
    right. split; [| eauto].
    intros j z Hj Hz. apply (Hw (j - p)%nat z).
    rewrite nth_error_skipn. replace (p + (j - p))%nat with j by lia.
    exact Hz.
  - destruct Hw as (k & y & Hd & Hk & Hy & Hbefore). cbn in Hd. subst d.
    rewrite nth_error_skipn in Hk.
    assert (Hkl : (p + k < List.length t)%nat).
    { rewrite Hlen, <- (length_map I_of). apply nth_error_Some. rewrite Hk.
      discriminate. }
    destruct (nth_error t (p + k)) as [tk |] eqn:Etk;
      [| apply nth_error_None in Etk; lia].
    rewrite (index_Some _ _ Etk). cbn [rbind].
    eexists _, p. split; [reflexivity |]. cbn.
    rewrite length_map in Hfs.
    repeat (split; [assumption |]).
    left. exists (p + k)%nat, y, tk, t0.
    repeat (split; [first [assumption | lia] |]).
    split; [| auto].
    intros j z Hj Hz. apply (Hbefore (j - p)%nat z); [lia |].
    rewrite nth_error_skipn. replace (p + (j - p))%nat with j by lia.
    exact Hz.
Qed.

Lemma nth_error_last_eq {A} (l : list A) (d : A) :
  l <> [] -> nth_error l (List.length l - 1) = Some (last l d).
Proof.
  induction l as [| a l IH]; [congruence | intros _].
  destruct l as [| b l]; [reflexivity |].
  cbn [List.length]. replace (S (S (List.length l)) - 1)%nat
    with (S (List.length (b :: l) - 1)) by (cbn; lia).
  cbn [nth_error]. rewrite IH by congruence. reflexivity.
Qed.

Lemma last_map {A B} (f : A -> B) (l : list A) (d : A) :
  last (map f l) (f d) = f (last l d).
Proof.
  induction l as [| a l IH]; [reflexivity |].
  destruct l as [| b l]; [reflexivity |]. exact IH.
Qed.

Lemma stats_total (t : list Q) (solution : list (state Q)) :
  solution <> [] ->
  List.length t = List.length solution ->
  exists st, compute_summary_statistics t solution = Ok st.
Proof.
  intros Hne Hlen.
  destruct (@summary_statistics_correct t solution Hne Hlen)
    as (st & _ & Hst & _).
  eauto.
Qed.

(** C5.  For a non-empty trajectory (times [t_start :: ts], one row per
    time): [peak_infection] is the largest [I], reached first at the index of
    [peak_time]; [final_size] is the last [R]; [duration] is the first time at
    or after the peak at which [I] is below [0.001 * peak_infection], minus
    [t_start], and [t_end - t_start] when [I] never gets below it from the
    peak on. *)
Theorem summary_statistics_spec (t_start : Q) (ts : list Q) (y : state Q)
    (ys : list (state Q)) :
  List.length ts = List.length ys ->
  let t := t_start :: ts in
  let solution := y :: ys in
  let t_end := last t t_start in
  let I := map I_of solution in
  exists st peak_idx,
    compute_summary_statistics t solution = Ok st /\
    nth_error I peak_idx = Some (peak_infection st) /\
    (forall j x, nth_error I j = Some x -> x <= peak_infection st) /\
    (forall j x, (j < peak_idx)%nat -> nth_error I j = Some x ->
       x < peak_infection st) /\
    nth_error t peak_idx = Some (peak_time st) /\
    final_size st = R_of (last solution y) /\
    ((exists k x tk,
        (peak_idx <= k)%nat /\
        nth_error I k = Some x /\
        x < (1#1000) * peak_infection st /\
        (forall j z, (peak_idx <= j < k)%nat -> nth_error I j = Some z ->
           ~ z < (1#1000) * peak_infection st) /\
        nth_error t k = Some tk /\
        duration st = tk - t_start)
     \/
     ((forall j z, (peak_idx <= j)%nat -> nth_error I j = Some z ->
         ~ z < (1#1000) * peak_infection st) /\
      duration st = t_end - t_start)).
Proof.
  intros Hlen. cbv zeta.
  assert (Hne : y :: ys <> []) by congruence.
  assert (Hl : List.length (t_start :: ts) = List.length (y :: ys))
    by (cbn; lia).
  destruct (@summary_statistics_correct _ _ Hne Hl)
    as (st & p & Hst & Hpk & Hmax & Hfirst & Hpt & Hfs & Hdur).
  exists st, p.
  repeat (split; [assumption |]).
  split.
  - rewrite <- (length_map R_of) in Hfs.
    rewrite (nth_error_last_eq (R_of y)) in Hfs by (cbn; congruence).
    injection Hfs as <-.
    apply (last_map (@R_of Q) (y :: ys) y).
  - destruct Hdur as [(k & x & tk & t0 & Hk & Hx & Hlt & Hb & Htk & Ht0 & Hd)
                     | (Hnever & tl & t0 & Htl & Ht0 & Hd)].
    + left. exists k, x, tk. cbn in Ht0. injection Ht0 as <-.
      repeat (split; [assumption |]). exact Hd.
    + right. split; [exact Hnever |]. cbn [nth_error] in Ht0.
      injection Ht0 as <-.
      rewrite (nth_error_last_eq t_start) in Htl by congruence.
      injection Htl as <-. exact Hd.
Qed.

Lemma summary_statistics_spec_witness :
  exists st,
    compute_summary_statistics [0; 1; 2; 3]
      [(9#10, 1#10, 0); (6#10, 3#10, 1#10); (5#10, 3#10, 2#10);
       (5#10, 1#10000, 4999#10000)] = Ok st /\
    peak_infection st = 3#10 /\ peak_time st = 1 /\
    final_size st = 4999#10000 /\ duration st = 3 - 0.
Proof.
  destruct (@summary_statistics_spec 0 [1; 2; 3] (9#10, 1#10, 0)
              [(6#10, 3#10, 1#10); (5#10, 3#10, 2#10);
               (5#10, 1#10000, 4999#10000)] eq_refl)
    as (st & p & Hst & _).
  exists st. split; [exact Hst |].
  vm_compute in Hst. injection Hst as <-. repeat split.
Defined.

(** ** Termination of the segment loop *)

Lemma Qceiling_unique (x : Q) (z : Z) :
  inject_Z (z - 1) < x -> x <= inject_Z z -> Qceiling x = z.
Proof.
  intros Hlo Hhi.
  pose proof (Qle_ceiling x) as H1. pose proof (Qceiling_lt x) as H2.
  assert (A : (Qceiling x - 1 < z)%Z).
  { rewrite Zlt_Qlt. eapply Qlt_le_trans; eauto. }
  assert (B : (z - 1 < Qceiling x)%Z).
  { rewrite Zlt_Qlt. eapply Qlt_le_trans; eauto. }
  lia.
Qed.

Lemma inject_Z_pred (z : Z) : inject_Z (z - 1) == inject_Z z - 1.
Proof.
  unfold Z.sub. rewrite inject_Z_plus. reflexivity.
Qed.

Lemma iterations_done (t t_end ci : Q) :
  0 < ci -> t_end <= t -> iterations t t_end ci = 0%nat.
Proof.
  intros Hci Hle. unfold iterations.
  assert (Hx : (t_end - t) / ci <= 0) by (apply Qle_shift_div_r; lra).
  apply Qceiling_resp_le in Hx. change (Qceiling 0) with 0%Z in Hx. lia.
Qed.

Lemma iterations_step (t t_end ci : Q) :
  0 < ci -> t < t_end ->
  iterations t t_end ci = S (iterations (py_min (t + ci) t_end) t_end ci).
Proof.
  intros Hci Hlt. unfold py_min. qnum.
  destruct (Qltb t_end (t + ci)) eqn:E;
    [apply Qltb_lt in E | apply Qltb_ge in E].
  - rewrite (@iterations_done t_end t_end ci Hci) by apply Qle_refl.
    unfold iterations. rewrite (@Qceiling_unique _ 1); [reflexivity | |].
    + apply Qlt_shift_div_l; [exact Hci |]. change (inject_Z (1 - 1)) with 0.
      lra.
    + apply Qle_shift_div_r; [exact Hci |]. change (inject_Z 1) with 1. lra.
  - unfold iterations.
    set (x := (t_end - t) / ci).
    assert (Hx1 : 1 <= x).
    { apply Qle_shift_div_l; [exact Hci | lra]. }
    assert (Hx' : (t_end - (t + ci)) / ci == x - 1).
    { unfold x. field. lra. }
    pose proof (Qle_ceiling x) as H1. pose proof (Qceiling_lt x) as H2.
    rewrite inject_Z_pred in H2.
    assert (Hz : (1 <= Qceiling x)%Z).
    { rewrite Zle_Qle. change (inject_Z 1) with 1. lra. }
    rewrite (@Qceiling_unique ((t_end - (t + ci)) / ci) (Qceiling x - 1)).
    + lia.
    + rewrite Hx', !inject_Z_pred. lra.
    + rewrite Hx', inject_Z_pred. lra.
Qed.

Lemma index_not_out_of_fuel {A} (l : list A) (i : nat) :
  index l i <> OutOfFuel.
Proof. unfold index. destruct (nth_error l i); discriminate. Qed.

Lemma rbind_not_out_of_fuel {A B} (m : result A) (f : A -> result B) :
  m <> OutOfFuel -> (forall a, f a <> OutOfFuel) -> rbind m f <> OutOfFuel.
Proof. destruct m; cbn; auto; discriminate. Qed.

Lemma compute_summary_statistics_returns (t : list Q)
    (solution : list (state Q)) :
  compute_summary_statistics t solution <> OutOfFuel.
Proof.
  unfold compute_summary_statistics.
  apply rbind_not_out_of_fuel.
  { unfold np_argmax. destruct (map I_of solution); discriminate. }
  intros peak_idx.
  repeat (apply rbind_not_out_of_fuel;
          [first [apply index_not_out_of_fuel
                 | unfold index_last; apply index_not_out_of_fuel] |];
          intro).
  apply rbind_not_out_of_fuel; [| discriminate].
  destruct (np_where_lt _ _);
    repeat (apply rbind_not_out_of_fuel;
            [first [apply index_not_out_of_fuel
                   | unfold index_last; apply index_not_out_of_fuel] |];
            intro);
    discriminate.
Qed.

Lemma py_min_le (a b : Q) : py_min a b <= b.
Proof.
  unfold py_min. qnum.
  destruct (Qltb b a) eqn:E; [apply Qle_refl | now apply Qltb_ge in E].
Qed.

Section Loop.
Variable solve_sir : solver Q.
Variables t_end gamma control_interval dt : Q.

Lemma loop_body_cases (v : loop_vars Q) (p : beta_func Q) :
  (exists v' p' seg,
     loop_body solve_sir t_end gamma control_interval dt v p = (Ok v', p') /\
     current_t v' = py_min (current_t v + control_interval) t_end /\
     segments v' = segments v ++ [seg]) \/
  (exists e p',
     loop_body solve_sir t_end gamma control_interval dt v p = (Raise e, p')).
Proof.
  unfold loop_body, bind, integrate.
  destruct (run_ode _ _ p) as [[segment_t segment_sol] p1].
  destruct p1 as [b | b | b]; cbn [get_current_beta];
    try solve [right; eauto].
  unfold lift, index_last, index.
  destruct (nth_error segment_sol _); cbn; [left | right]; eauto 10.
  do 3 eexists. split; [reflexivity |]. split; reflexivity.
Qed.

Lemma while_loop_terminates (fuel : nat) :
  0 < control_interval ->
  forall (v : loop_vars Q) (p : beta_func Q),
    (iterations (current_t v) t_end control_interval <= fuel)%nat ->
    while_loop solve_sir fuel t_end gamma control_interval dt v p
    = while_loop solve_sir (iterations (current_t v) t_end control_interval)
        t_end gamma control_interval dt v p /\
    ((exists v' p',
        while_loop solve_sir fuel t_end gamma control_interval dt v p
          = (Ok v', p') /\
        List.length (segments v')
          = (List.length (segments v)
             + iterations (current_t v) t_end control_interval)%nat /\
        t_end <= current_t v' /\
        (current_t v <= t_end -> current_t v' <= t_end)) \/
     (exists e p',
        while_loop solve_sir fuel t_end gamma control_interval dt v p
          = (Raise e, p'))).
Proof.
  intros Hci. induction fuel as [| fuel IH]; intros v p Hn.
  - assert (E0 : iterations (current_t v) t_end control_interval = 0%nat)
      by lia.
    rewrite E0. split; [reflexivity |]. cbn. qnum.
    destruct (Qltb (current_t v) t_end) eqn:E;
      [apply Qltb_lt in E | apply Qltb_ge in E].
    + rewrite (iterations_step Hci E) in E0. discriminate.
    + left. exists v, p. split; [reflexivity |]. split; [lia | auto].
  - cbn [while_loop]. qnum.
    destruct (Qltb (current_t v) t_end) eqn:E.
    + pose proof E as E'. apply Qltb_lt in E'.
      rewrite (iterations_step Hci E') in *.
      cbn [while_loop]. qnum. rewrite E. unfold bind.
      destruct (loop_body_cases v p)
        as [(v' & p' & seg & Hb & Ht & Hs) | (e & p' & Hb)]; rewrite Hb.
      * rewrite <- Ht in *.
        destruct (IH v' p' ltac:(lia)) as [Heq Hres]. split; [exact Heq |].
        destruct Hres as [(v2 & p2 & Hw & Hl & Hd & Hu) | (e & p2 & Hw)].
        -- left. exists v2, p2. split; [exact Hw |].
           split; [| split; [exact Hd |]].
           ++ rewrite Hl, Hs, length_app. cbn. lia.
           ++ intros _. apply Hu. rewrite Ht. apply py_min_le.
        -- right. eauto.
      * split; [reflexivity |]. right. eauto.
    + pose proof E as E'. apply Qltb_ge in E'.
      rewrite (iterations_done Hci E'). cbn [while_loop]. qnum. rewrite E.
      split; [reflexivity |]. left. exists v, p.
      split; [reflexivity |]. split; [lia | auto].
Qed.
End Loop.

(** C9 (exact arithmetic).  With [t_start <= t_end] and a positive control
    interval, the segment loop of the adaptive driver stops: on integer or
    rational times, [ceil((t_end - t_start) / control_interval)] units of
    fuel are enough for any integrator and any policy, more fuel changes
    nothing, a loop that completes has run exactly that many segments, and
    the whole run ends (with a trajectory or an exception). *)
Theorem segment_loop_terminates (solve_sir : solver Q)
    (t_start t_end gamma control_interval dt : Q) (y0 : state Q)
    (p : beta_func Q) (fuel : nat) :
  t_start <= t_end ->
  0 < control_interval ->
  let n := iterations t_start t_end control_interval in
  (n <= fuel)%nat ->
  let loop k := while_loop solve_sir k t_end gamma control_interval dt
                  (init_vars t_start y0) p in
  fst (loop fuel) <> OutOfFuel /\
  loop fuel = loop n /\
  (forall v p', loop fuel = (Ok v, p') ->
     List.length (segments v) = n /\ current_t v == t_end) /\
  fst (run_adaptive_scenario solve_sir fuel (t_start, t_end) y0 gamma
         control_interval dt p) <> OutOfFuel.
Proof.
  intros Hspan Hci n Hfuel loop.
  assert (Hall : forall q,
    let r := while_loop solve_sir fuel t_end gamma control_interval dt
               (init_vars t_start y0) q in
    fst r <> OutOfFuel /\
    r = while_loop solve_sir n t_end gamma control_interval dt
          (init_vars t_start y0) q /\
    (forall v p', r = (Ok v, p') -> List.length (segments v) = n)).
  { intros q. cbv zeta.
    destruct (@while_loop_terminates solve_sir t_end gamma control_interval dt
                fuel Hci (init_vars t_start y0) q Hfuel) as [Heq Hres].
    split; [| split; [exact Heq |]].
    - destruct Hres as [(v & p' & Hw & _) | (e & p' & Hw)]; rewrite Hw;
        discriminate.
    - intros v p' Hw.
      destruct Hres as [(v' & p2 & Hw' & Hl & _) | (e & p2 & Hw')];
        rewrite Hw in Hw'; [| discriminate].
      injection Hw' as -> ->. exact Hl. }
  split; [apply Hall |]. split; [apply Hall |]. split.
  - intros v p' Hw. split; [eapply Hall; exact Hw |].
    destruct (@while_loop_terminates solve_sir t_end gamma control_interval dt
                fuel Hci (init_vars t_start y0) p Hfuel) as [_ Hres].
    fold (loop fuel) in Hres. rewrite Hw in Hres.
    destruct Hres as [(v' & p2 & Hw' & _ & Hd & Hu) | (e & p2 & Hw')];
      [| discriminate].
    injection Hw' as <- <-.
    apply Qle_antisym; [apply Hu; exact Hspan | exact Hd].
  - unfold run_adaptive_scenario, bind.
    destruct (reset_beta p) as [[[] | e |] q] eqn:Er; cbn; try discriminate.
    + fold (init_vars t_start y0).
      destruct (Hall q) as (Hnf & _).
      destruct (while_loop solve_sir fuel t_end gamma control_interval dt
                  (init_vars t_start y0) q) as [[v | e |] q'];
        cbn in *; try discriminate; try congruence.
      unfold lift.
      pose proof (compute_summary_statistics_returns (t_full v)
                    (column_stack (S_full v) (I_full v) (R_full v))) as Hs.
      destruct (compute_summary_statistics _ _); cbn; congruence.
    + destruct p; discriminate.
Qed.

Lemma segment_loop_terminates_witness :
  (iterations 0 1 (4#10) = 3)%nat /\
  fst (while_loop solve_sir_heun 3 1 (1#10) (4#10) (1#2)
         (init_vars 0 (99#100, 1#100, 0)) (Adaptive AdaptiveBeta.default))
    <> OutOfFuel.
Proof.
  split; [reflexivity |].
  exact (proj1 (@segment_loop_terminates solve_sir_heun 0 1 (1#10) (4#10)
                  (1#2) (99#100, 1#100, 0) (Adaptive AdaptiveBeta.default) 3
                  ltac:(vm_compute; discriminate) eq_refl (le_n 3))).
Defined.

(** C9 (as stated) fails in binary64: over [(0.0, 1.0)] with control interval
    [0.1] the bound [ceil((1.0 - 0.0) / 0.1)] is 10, ten iterations leave
    the loop at [current_t = 0.9999999999999999 < 1.0], and the loop runs an
    eleventh segment. *)
Lemma float_loop_exceeds_bound :
  let t_start : float := lit 0 in
  let t_end : float := lit 1 in
  let control_interval : float := lit (1#10) in
  let loop k := while_loop solve_sir_heun k t_end (lit (1#10)) control_interval
                  (lit (1#10))
                  (init_vars t_start (lit (99#100), lit (1#100), lit 0))
                  (Adaptive AdaptiveBeta.default) in
  ceil (div (sub t_end t_start) control_interval) = 10%Z /\
  fst (loop 10%nat) = OutOfFuel /\
  match fst (loop 11%nat) with
  | Ok v => List.length (segments v) = 11%nat /\
            map (fun seg => hd_error (fst seg)) (skipn 10 (segments v))
              = [Some (sub (lit 1) (lit (1#9007199254740992)))]
  | _ => False
  end.
Proof.
  cbv zeta. split; [vm_compute; reflexivity |].
  split; [vm_compute; reflexivity |].
  vm_compute. split; reflexivity.
Qed.

(** In binary64 the loop need not stop at all: at [current_t = 2^53] a
    control interval of [1] is absorbed by the rounding of
    [current_t + control_interval], and the loop never advances. *)
Lemma float_loop_absorbs (fuel : nat) :
  let t_start : float := lit 9007199254740992 in
  let t_end : float := lit 18014398509481984 in
  lt t_start t_end = true /\
  lt (lit 0) (lit 1 : float) = true /\
  fst (while_loop solve_sir_heun fuel t_end (lit (1#10)) (lit 1) (lit 1)
         (init_vars t_start (lit (99#100), lit (1#100), lit 0))
         (Adaptive AdaptiveBeta.default))
  = OutOfFuel.
Proof.
  cbv zeta. split; [reflexivity |]. split; [reflexivity |].
  set (t0 := lit 9007199254740992 : float).
  set (t1 := lit 18014398509481984 : float).
  assert (Hloop : forall (v : loop_vars float) b,
    current_t v = t0 ->
    exists q, while_loop solve_sir_heun fuel t1 (lit (1#10)) (lit 1) (lit 1)
                v (Adaptive b) = (OutOfFuel, q)).
  { induction fuel as [| n IH]; intros v b Hv; cbn [while_loop];
      rewrite Hv; change (lt t0 t1) with true; cbv iota.
    - eexists. reflexivity.
    - unfold bind at 1. unfold loop_body at 1. unfold bind, integrate.
      rewrite Hv.
      change (py_min (add t0 (lit 1)) t1) with t0.
      change (solve_sir_heun (t0, t0) (current_y v) (lit (1#10)) (lit 1))
        with (Return (T:=float) ([t0], [current_y v])).
      cbn [run_ode get_current_beta lift index_last index List.length
           Nat.sub nth_error].
      apply IH. reflexivity. }
  destruct (Hloop (init_vars t0 (lit (99#100), lit (1#100), lit 0))
              AdaptiveBeta.default) as (q & Hq); [reflexivity |].
  rewrite Hq. reflexivity.
Qed.

(** ** Stitching the segments *)

Section OdeAll.
Context {T : Type} `{PyNum T}.

Lemma ode_all_run {A P} (R : A -> Prop) (beta : T -> T -> P -> T * P)
    (m : ode T A) (p : P) :
  ode_all R m -> R (fst (run_ode beta m p)).
Proof.
  revert p. induction m as [a | time i k IH]; intros p Hm; cbn in *.
  - exact Hm.
  - destruct (beta time i p) as [b p']. apply IH, Hm.
Qed.

Lemma ode_all_bind {A B} (R : B -> Prop) (m : ode T A) (f : A -> ode T B) :
  ode_all (fun a => ode_all R (f a)) m -> ode_all R (ode_bind m f).
Proof.
  induction m as [a | time i k IH]; cbn; intros Hm.
  - exact Hm.
  - intros b. apply IH, Hm.
Qed.
End OdeAll.

Lemma last_indep {A} (l : list A) (d d' : A) :
  l <> [] -> last l d = last l d'.
Proof.
  intros Hne. destruct (exists_last Hne) as (l0 & x & ->).
  rewrite !last_last. reflexivity.
Qed.

Lemma increasing_tail (a : Q) (l : list Q) :
  increasing (a :: l) -> increasing l.
Proof. destruct l; cbn; tauto. Qed.

Lemma increasing_app (l1 : list Q) (x : Q) (l2 : list Q) :
  increasing (l1 ++ [x]) -> increasing (x :: l2) ->
  increasing (l1 ++ x :: l2).
Proof.
  induction l1 as [| a l1 IH]; intros H1 H2; [exact H2 |].
  destruct l1 as [| b l1].
  - cbn in *. tauto.
  - cbn [app increasing] in *. split; [tauto |]. apply IH; tauto.
Qed.

Lemma increasing_lt_all (a : Q) (l : list Q) :
  increasing (a :: l) -> forall x, In x l -> a < x.
Proof.
  revert a. induction l as [| b l IH]; intros a Hinc x Hx; [contradiction |].
  destruct Hinc as [Hab Hrest]. destruct Hx as [<- | Hx]; [exact Hab |].
  eapply Qlt_trans; [exact Hab | apply IH; assumption].
Qed.

Lemma increasing_pairwise (l : list Q) :
  increasing l ->
  forall i j a b, (i < j)%nat ->
    nth_error l i = Some a -> nth_error l j = Some b -> a < b.
Proof.
  induction l as [| x l IH]; intros Hinc i j a b Hij Ha Hb.
  - destruct i; discriminate.
  - destruct j as [| j]; [lia |]. cbn in Hb. destruct i as [| i].
    + cbn in Ha. injection Ha as <-.
      apply (@increasing_lt_all x l Hinc). eapply nth_error_In; eauto.
    + cbn in Ha. apply (IH (@increasing_tail x l Hinc) i j); auto. lia.
Qed.

Lemma stitch_snoc {A} (segs : list (list A)) (s : list A) :
  stitch (segs ++ [s])
  = match segs with [] => s | _ => stitch segs ++ tl s end.
Proof.
  destruct segs as [| s0 r]; cbn.
  - apply app_nil_r.
  - rewrite flat_map_app. cbn. rewrite app_nil_r, app_assoc. reflexivity.
Qed.

Lemma column_stack_rows (rows : list (state Q)) :
  column_stack (map S_of rows) (map I_of rows) (map R_of rows) = rows.
Proof.
  unfold column_stack. induction rows as [| [[s i] r] rows IH];
    [reflexivity |]. cbn. rewrite IH. reflexivity.
Qed.

(** A well-formed segment over a span of positive length has a first and a
    distinct last sample *)
Lemma segment_ok_shape (t0 t1 : Q) (y0 : state Q)
    (seg : list Q * list (state Q)) :
  segment_ok t0 t1 y0 seg -> t0 < t1 ->
  exists ts ys y1,
    fst seg = t0 :: ts ++ [t1] /\
    snd seg = y0 :: ys ++ [y1] /\
    List.length ys = List.length ts /\
    increasing (t0 :: ts ++ [t1]).
Proof.
  destruct seg as [tl_ sol]. unfold segment_ok. cbn [fst snd].
  intros (Hlen & Hhd & Hlast & Hinc & Hy) Hlt.
  destruct tl_ as [| a rest]; [discriminate |]. injection Hhd as ->.
  destruct sol as [| b srest]; [discriminate |]. injection Hy as ->.
  destruct rest as [| c rest].
  - cbn in Hlast. subst t1. exfalso. revert Hlt. apply Qlt_irrefl.
  - assert (Hne : c :: rest <> []) by discriminate.
    destruct (exists_last Hne) as (ts & x & E). rewrite E in *.
    assert (x = t1).
    { rewrite <- Hlast. change (t0 :: ts ++ [x]) with ((t0 :: ts) ++ [x]).
      now rewrite last_last. }
    subst x.
    assert (Hs : srest <> []).
    { destruct srest; [| discriminate]. cbn in Hlen.
      rewrite length_app in Hlen. cbn in Hlen. lia. }
    destruct (exists_last Hs) as (ys & y1 & ->).
    exists ts, ys, y1. repeat split; auto.
    cbn in Hlen. rewrite !length_app in Hlen. cbn in Hlen. lia.
Qed.

Lemma chain_facts (t : Q) (y : state Q) segs (t' : Q) (y' : state Q) :
  chain t y segs t' y' ->
  match segs with
  | [] => t' = t /\ y' = y
  | _ =>
      exists T0 Y0,
        stitch (map fst segs) = T0 ++ [t'] /\
        stitch (map snd segs) = Y0 ++ [y'] /\
        List.length Y0 = List.length T0 /\
        hd_error (stitch (map fst segs)) = Some t /\
        hd_error (stitch (map snd segs)) = Some y /\
        increasing (stitch (map fst segs)) /\
        t < t'
  end.
Proof.
  induction 1 as [| segs t1 y1 t2 seg Hc IH Hlt Hok]; [split; reflexivity |].
  destruct (@segment_ok_shape _ _ _ _ Hok Hlt)
    as (ts & ys & yl & Ht & Hy & Hlen & Hinc).
  assert (Hlast : last (snd seg) y1 = yl).
  { rewrite Hy. change (y1 :: ys ++ [yl]) with ((y1 :: ys) ++ [yl]).
    apply last_last. }
  rewrite Hlast.
  destruct segs as [| s0 r].
  - destruct IH as [-> ->]. cbn [app map stitch flat_map].
    rewrite !app_nil_r, Ht, Hy.
    exists (t :: ts), (y :: ys). cbn [List.length hd_error].
    repeat split; auto.
  - destruct IH as (T0 & Y0 & HT & HY & HL & HhT & HhY & HincT & Htt).
    assert (Hm : forall {A B} (f : A -> B) (l : list A) (x : A),
              map f (l ++ [x]) = map f l ++ [f x]).
    { intros. rewrite map_app. reflexivity. }
    rewrite !Hm, !stitch_snoc.
    change (map fst (s0 :: r)) with (fst s0 :: map fst r) in *.
    change (map snd (s0 :: r)) with (snd s0 :: map snd r) in *.
    cbv iota. rewrite Ht, Hy. cbn [tl]. rewrite HT, HY.
    exists (T0 ++ t1 :: ts), (Y0 ++ y1 :: ys).
    rewrite <- !app_assoc. cbn [app].
    split; [reflexivity |]. split; [reflexivity |].
    split; [rewrite !length_app; cbn; lia |].
    split.
    { rewrite HT in HhT. destruct T0; cbn in *; exact HhT. }
    split.
    { rewrite HY in HhY. destruct Y0; cbn in *; exact HhY. }
    split; [| eapply Qlt_trans; eauto].
    apply increasing_app; [rewrite <- HT; exact HincT | exact Hinc].
Qed.

Lemma py_min_gt (t ci t_end : Q) :
  0 < ci -> t < t_end -> t < py_min (t + ci) t_end.
Proof.
  intros Hci Hlt. unfold py_min. qnum.
  destruct (Qltb t_end (t + ci)); lra.
Qed.

Section Invariant.
Variable solve_sir : solver Q.
Hypothesis solve_sir_ok : solver_ok solve_sir.
Variables t_start t_end gamma control_interval dt : Q.
Variable y0 : state Q.
Hypothesis control_interval_pos : 0 < control_interval.
Hypothesis dt_pos : 0 < dt.

Lemma loop_inv_init : loop_inv t_start y0 (init_vars t_start y0).
Proof.
  unfold loop_inv, init_vars. cbn. repeat split; constructor.
Qed.

Lemma loop_body_inv (v : loop_vars Q) (b : AdaptiveBeta.t Q) :
  loop_inv t_start y0 v ->
  current_t v < t_end ->
  exists v' b',
    loop_body solve_sir t_end gamma control_interval dt v (Adaptive b)
      = (Ok v', Adaptive b') /\
    loop_inv t_start y0 v' /\
    current_t v' = py_min (current_t v + control_interval) t_end.
Proof.
  intros (Hchain & HT & HS & HI & HR & HB) Hlt.
  pose proof (py_min_gt control_interval_pos Hlt) as Hnext.
  unfold loop_body, bind, integrate. qnum.
  set (next_t := py_min (current_t v + control_interval) t_end) in *.
  set (beta_wrapper := fun (time _ : Q) => call_beta time (I_of (current_y v))).
  set (prog := solve_sir (current_t v, next_t) (current_y v) gamma dt).
  pose proof (@ode_all_run Q _ _ _ beta_wrapper prog (Adaptive b)
                (@solve_sir_ok _ _ (current_y v) gamma dt Hnext dt_pos))
    as Hseg.
  pose proof (@run_ode_config Q _ beta_wrapper prog
                (fun time i p => call_beta_config time _ p) (Adaptive b))
    as Hcfg.
  destruct (run_ode beta_wrapper prog (Adaptive b))
    as [[segment_t segment_sol] p1].
  cbn [fst snd] in Hseg, Hcfg.
  destruct p1 as [b' | b' | b']; cbn in Hcfg; try contradiction.
  cbn [get_current_beta].
  destruct (@segment_ok_shape _ _ _ _ Hseg Hnext)
    as (ts & ys & yl & Ht & Hy & Hlen & Hinc).
  cbn [fst snd] in Ht, Hy.
  unfold lift, index_last, index.
  rewrite (@nth_error_last_eq _ segment_sol (current_y v))
    by (rewrite Hy; discriminate).
  eexists _, b'. split; [reflexivity |]. split; [| reflexivity].
  unfold loop_inv.
  cbn [segments current_t current_y t_full S_full I_full R_full beta_full].
  split.
  { apply chain_snoc with (t1 := current_t v); assumption. }
  rewrite !map_app. cbn [map fst snd]. rewrite !stitch_snoc.
  pose proof (chain_facts Hchain) as Hf.
  rewrite HT, HS, HI, HR.
  destruct (segments v) as [| s0 r].
  - cbn [map stitch List.length Nat.eqb app].
    rewrite HT in HB. cbn in HB.
    destruct (beta_full v); [| discriminate].
    repeat split; try reflexivity.
    cbn [app]. apply repeat_length.
  - destruct Hf as (T0 & Y0 & HfT & HfY & _).
    change (map fst (s0 :: r)) with (fst s0 :: map fst r) in *.
    change (map snd (s0 :: r)) with (snd s0 :: map snd r) in *.
    replace (List.length (stitch (fst s0 :: map fst r)) =? 0)%nat with false
      by (rewrite HfT, length_app; cbn; symmetry; apply Nat.eqb_neq; lia).
    cbv iota. rewrite <- !map_app.
    repeat split; try reflexivity.
    rewrite !length_app, repeat_length, length_tl, HB, HT. reflexivity.
Qed.

Lemma while_loop_inv (fuel : nat) :
  forall (v : loop_vars Q) (b : AdaptiveBeta.t Q),
    loop_inv t_start y0 v ->
    current_t v <= t_end ->
    (iterations (current_t v) t_end control_interval <= fuel)%nat ->
    exists v' b',
      while_loop solve_sir fuel t_end gamma control_interval dt v (Adaptive b)
        = (Ok v', Adaptive b') /\
      loop_inv t_start y0 v' /\
      current_t v' == t_end.
Proof.
  induction fuel as [| fuel IH]; intros v b Hinv Hle Hn;
    cbn [while_loop]; qnum;
    destruct (Qltb (current_t v) t_end) eqn:E.
  - apply Qltb_lt in E.
    rewrite (iterations_step control_interval_pos E) in Hn. lia.
  - apply Qltb_ge in E. exists v, b. split; [reflexivity |].
    split; [exact Hinv | now apply Qle_antisym].
  - apply Qltb_lt in E.
    rewrite (iterations_step control_interval_pos E) in Hn.
    destruct (loop_body_inv b Hinv E) as (v' & b' & Hb & Hinv' & Ht).
    unfold bind at 1. rewrite Hb.
    apply IH; [exact Hinv' | rewrite Ht; apply py_min_le |].
    rewrite Ht. lia.
  - apply Qltb_ge in E. exists v, b. split; [reflexivity |].
    split; [exact Hinv | now apply Qle_antisym].
Qed.
End Invariant.

Lemma chain_end (t : Q) (y : state Q) segs seg (t' : Q) (y' : state Q) :
  chain t y (segs ++ [seg]) t' y' ->
  t' = last (fst seg) t /\ y' = last (snd seg) y.
Proof.
  intros Hc. inversion Hc as [E | segs0 t1 y1 t2 seg0 Hc0 Hlt Hok E].
  - destruct segs; discriminate.
  - apply app_inj_tail in E. destruct E as [-> ->].
    destruct (@segment_ok_shape _ _ _ _ Hok Hlt)
      as (ts & ys & yl & Ht & Hy & _).
    split.
    + destruct Hok as (_ & _ & Hl & _). rewrite <- Hl.
      apply last_indep. rewrite Ht. discriminate.
    + apply last_indep. rewrite Hy. discriminate.
Qed.

(** Each segment starts at the time and in the state where the one before
    it ended *)
Lemma chain_consecutive (t : Q) (y : state Q) segs (t' : Q) (y' : state Q) :
  chain t y segs t' y' ->
  forall k s1 s2,
    nth_error segs k = Some s1 -> nth_error segs (S k) = Some s2 ->
    hd_error (fst s2) = Some (last (fst s1) t) /\
    hd_error (snd s2) = Some (last (snd s1) y).
Proof.
  induction 1 as [| segs t1 y1 t2 seg Hc IH Hlt Hok]; intros k s1 s2 H1 H2.
  - destruct k; discriminate.
  - destruct (Nat.lt_ge_cases (S k) (List.length segs)) as [L | L].
    + rewrite nth_error_app1 in H1, H2 by lia. eauto.
    + rewrite nth_error_app2 in H2 by exact L.
      destruct (S k - List.length segs)%nat as [| m] eqn:Em;
        [| destruct m; discriminate].
      cbn in H2. injection H2 as <-.
      rewrite nth_error_app1 in H1 by lia.
      assert (Hne : segs <> [])
        by (destruct segs; cbn in *; [lia | discriminate]).
      destruct (exists_last Hne) as (segs' & x & ->).
      rewrite length_app in Em, L. cbn [List.length] in Em, L.
      rewrite nth_error_app2 in H1 by lia.
      replace (k - List.length segs')%nat with 0%nat in H1 by lia.
      cbn in H1. injection H1 as ->.
      destruct (@chain_end _ _ _ _ _ _ Hc) as [-> ->].
      destruct Hok as (_ & Hh & _ & _ & Hy). auto.
Qed.


(** ** The modelled integrator meets section 4.3 *)

Lemma grid_from_spec (n : nat) :
  forall t dt t_end : Q,
    0 < dt ->
    (0 < n)%nat ->
    t + inject_Z (Z.of_nat n) * dt - dt < t_end ->
    increasing (grid_from n t dt t_end) /\
    hd_error (grid_from n t dt t_end) = Some t /\
    last (grid_from n t dt t_end) t = t_end.
Proof.
  induction n as [| n IH]; intros t dt t_end Hdt Hn Hlast; [lia |].
  cbn [grid_from]. qnum.
  rewrite Nat2Z.inj_succ in Hlast. unfold Z.succ in Hlast.
  rewrite inject_Z_plus in Hlast. change (inject_Z 1) with 1 in Hlast.
  destruct n as [| m].
  - change (inject_Z (Z.of_nat 0)) with 0 in Hlast.
    cbn [grid_from increasing hd_error last].
    split; [split; [lra | exact I] | split; reflexivity].
  - destruct (IH (t + dt) dt t_end Hdt ltac:(lia) ltac:(lra))
      as (Hinc & Hhd & Hl).
    split; [| split; [reflexivity |]].
    + remember (grid_from (S m) (t + dt) dt t_end) as g eqn:Eg.
      destruct g as [| a g]; [discriminate |]. injection Hhd as ->.
      split; [lra | exact Hinc].
    + remember (grid_from (S m) (t + dt) dt t_end) as g eqn:Eg.
      destruct g as [| a g]; [discriminate |].
      change (last (t :: a :: g) t) with (last (a :: g) t).
      rewrite <- Hl. apply last_indep. discriminate.
Qed.

Lemma time_grid_spec (t0 t1 dt : Q) :
  t0 < t1 -> 0 < dt ->
  increasing (time_grid (t0, t1) dt) /\
  hd_error (time_grid (t0, t1) dt) = Some t0 /\
  last (time_grid (t0, t1) dt) t0 = t1.
Proof.
  intros Hlt Hdt. unfold time_grid. qnum.
  set (x := (t1 - t0) / dt).
  assert (Hx : 0 < x) by (apply Qlt_shift_div_l; lra).
  pose proof (Qle_ceiling x) as H1. pose proof (Qceiling_lt x) as H2.
  assert (Hz : (0 < Qceiling x)%Z).
  { rewrite Zlt_Qlt. change (inject_Z 0) with 0. lra. }
  apply grid_from_spec; [exact Hdt | lia |].
  rewrite Z2Nat.id by lia. rewrite inject_Z_pred in H2.
  assert (Hm : (inject_Z (Qceiling x) - 1) * dt < t1 - t0).
  { assert (E : t1 - t0 == x * dt) by (unfold x; field; lra).
    rewrite E. apply Qmult_lt_compat_r; assumption. }
  lra.
Qed.

Lemma heun_steps_shape (rest : list Q) :
  forall (y : state Q) (t gamma : Q),
    ode_all (fun sol => List.length sol = S (List.length rest) /\
                        hd_error sol = Some y)
      (heun_steps y t rest gamma).
Proof.
  induction rest as [| t' rest IH]; intros y t gamma.
  - cbn. auto.
  - cbn [heun_steps]. destruct y as [[s i] r].
    cbn [sir_derivatives ode_bind]. intros b1.
    match goal with
    | |- context [sir_derivatives ?y' _ _ _] => destruct y' as [[s' i'] r']
    end.
    cbn [sir_derivatives ode_bind]. intros b2.
    apply ode_all_bind.
    match goal with
    | |- ode_all _ (heun_steps ?y2 _ _ _) =>
        pose proof (IH y2 t' gamma) as Hrec;
        generalize dependent (heun_steps y2 t' rest gamma)
    end.
    intros m. induction m as [a | time j k IHm]; cbn.
    + intros [Hl _]. split; [now rewrite Hl | reflexivity].
    + intros Hk b. apply IHm, Hk.
Qed.

Lemma solve_sir_heun_ok : solver_ok (solve_sir_heun (T:=Q)).
Proof.
  intros t0 t1 y0 gamma dt Hlt Hdt. unfold solve_sir_heun.
  destruct (time_grid_spec Hlt Hdt) as (Hinc & Hhd & Hlast).
  destruct (time_grid (t0, t1) dt) as [| a rest]; [discriminate |].
  injection Hhd as ->. apply ode_all_bind.
  pose proof (heun_steps_shape rest y0 t0 gamma) as Hs.
  generalize dependent (heun_steps y0 t0 rest gamma).
  intros m. induction m as [sol | time j k IHm]; cbn.
  - intros [Hl Hh]. unfold segment_ok. cbn [fst snd List.length]. auto.
  - intros Hk b. apply IHm, Hk.
Qed.

(** The adaptive run on a span of positive length, with a well-formed
    integrator: it completes, and its trajectory is the stitched chain of its
    segments. *)
Lemma run_adaptive_scenario_chain (solve_sir : solver Q)
    (b : AdaptiveBeta.t Q) (t_start t_end gamma control_interval dt : Q)
    (y0 : state Q) (fuel : nat) :
  solver_ok solve_sir ->
  0 < control_interval -> 0 < dt -> t_start < t_end ->
  (iterations t_start t_end control_interval <= fuel)%nat ->
  exists r v b',
    run_adaptive_scenario solve_sir fuel (t_start, t_end) y0 gamma
      control_interval dt (Adaptive b) = (Ok r, Adaptive b') /\
    while_loop solve_sir fuel t_end gamma control_interval dt
      (init_vars t_start y0) (Adaptive (AdaptiveBeta.reset b))
      = (Ok v, Adaptive b') /\
    chain t_start y0 (segments v) (current_t v) (current_y v) /\
    segments v <> [] /\
    current_t v == t_end /\
    r_t r = stitch (map fst (segments v)) /\
    r_S r = map S_of (stitch (map snd (segments v))) /\
    r_I r = map I_of (stitch (map snd (segments v))) /\
    r_R r = map R_of (stitch (map snd (segments v))) /\
    List.length (r_beta r) = List.length (r_t r).
Proof.
  intros Hsolve Hci Hdt Hspan Hfuel.
  destruct (@while_loop_inv solve_sir Hsolve t_start t_end gamma
              control_interval dt y0 Hci Hdt fuel (init_vars t_start y0)
              (AdaptiveBeta.reset b) (loop_inv_init t_start y0)
              (Qlt_le_weak _ _ Hspan) Hfuel)
    as (v & b' & Hw & (Hchain & HT & HS & HI & HR & HB) & Hend).
  assert (Hne : segments v <> []).
  { intros E. pose proof (chain_facts Hchain) as Hf. rewrite E in Hf.
    destruct Hf as [Ht _]. rewrite Ht in Hend. lra. }
  pose proof (chain_facts Hchain) as Hf.
  destruct (segments v) as [| s0 segs] eqn:Es; [congruence |].
  destruct Hf as (T0 & Y0 & HfT & HfY & HfL & _).
  destruct (@stats_total (t_full v)
              (column_stack (S_full v) (I_full v) (R_full v)))
    as (st & Hst).
  { rewrite HS, HI, HR, column_stack_rows, HfY. destruct Y0; discriminate. }
  { rewrite HS, HI, HR, column_stack_rows, HT, HfT, HfY, !length_app, HfL.
    reflexivity. }
  eexists _, v, b'. split.
  { unfold run_adaptive_scenario, bind. cbn [reset_beta].
    fold (init_vars t_start y0). rewrite Hw. unfold lift. rewrite Hst.
    reflexivity. }
  cbn [r_t r_S r_I r_R r_beta]. rewrite Es.
  repeat (split; [first [assumption | discriminate] |]). exact HB.
Qed.

(** Over an empty span the loop body never runs and no trajectory comes
    back: the statistics fail on the empty arrays. *)
Lemma empty_span_raises (solve_sir : solver Q) (b : AdaptiveBeta.t Q)
    (t_start t_end gamma control_interval dt : Q) (y0 : state Q)
    (fuel : nat) :
  t_end <= t_start ->
  run_adaptive_scenario solve_sir fuel (t_start, t_end) y0 gamma
    control_interval dt (Adaptive b)
  = (Raise (ValueError "attempt to get an argmax of an empty sequence"),
     Adaptive (AdaptiveBeta.reset b)).
Proof.
  intros Hle. apply Qltb_ge in Hle.
  unfold run_adaptive_scenario, bind. cbn [reset_beta].
  destruct fuel; cbn [while_loop current_t]; qnum; rewrite Hle; reflexivity.
Qed.

Section Raw.
Context {T : Type} `{PyNum T}.
Variable solve_sir : solver T.
Variables t_end gamma control_interval dt : T.


End Raw.




(** ** Configuration checks *)

Section Raises.
Context {T : Type} `{PyNum T}.








Variable solve_sir : solver T.





End Raises.




(** A control interval of zero is not rejected either: the loop never
    advances, so no amount of fuel lets the run finish. *)
Lemma zero_control_interval_never_finishes (fuel : nat) :
  fst (run_scenario solve_sir_heun fuel "adaptive" (0, 1)
         (99#100, 1#100, 0) (1#10) 0 1 (Adaptive AdaptiveBeta.default))
  = OutOfFuel.
Proof.
  unfold run_scenario. cbn [String.eqb Ascii.eqb Bool.eqb].
  unfold run_adaptive_scenario, bind. cbn [reset_beta].
  fold (init_vars (T:=Q) 0 (99#100, 1#100, 0)).
  assert (Hloop : forall v b,
    current_t v == 0 ->
    exists q, while_loop solve_sir_heun fuel 1 (1#10) 0 1 v (Adaptive b)
              = (OutOfFuel, q)).
  { induction fuel as [| n IH]; intros v b Hv; cbn [while_loop]; qnum.
    - replace (Qltb (current_t v) 1) with true
        by (symmetry; apply Qltb_lt; lra).
      eexists. reflexivity.
    - replace (Qltb (current_t v) 1) with true
        by (symmetry; apply Qltb_lt; lra).
      unfold bind at 1. unfold loop_body at 1. unfold bind, integrate.
      qnum.
      set (next_t := py_min (current_t v + 0) 1).
      assert (Hnext : next_t == 0).
      { unfold next_t, py_min. qnum.
        destruct (Qltb 1 (current_t v + 0)) eqn:E;
          [apply Qltb_lt in E; lra | lra]. }
      assert (Hgrid : time_grid (T:=Q) (current_t v, next_t) 1 = [next_t]).
      { unfold time_grid. qnum.
        replace (Qceiling ((next_t - current_t v) / 1)) with 0%Z;
          [reflexivity |].
        symmetry. apply (Qceiling_comp ((next_t - current_t v) / 1) 0).
        rewrite Hnext, Hv. reflexivity. }
      unfold solve_sir_heun. rewrite Hgrid. cbn [heun_steps ode_bind run_ode].
      cbn [get_current_beta lift index_last index List.length Nat.sub
           nth_error].
      apply IH. exact Hnext. }
  destruct (Hloop (init_vars 0 (99#100, 1#100, 0))
              (AdaptiveBeta.reset AdaptiveBeta.default)) as (q & Hq).
  { reflexivity. }
  rewrite Hq. reflexivity.
Qed.

(* ================================================================== *)
(** * Further properties of the code *)

(** ** SIR dynamics *)

(** ** Signs in binary64 *)

Lemma binary_round_aux_opp (prec emax : Z) (s : bool) (m e : Z)
    (l : location) :
  binary_round_aux prec emax (negb s) m e l
  = SFopp (binary_round_aux prec emax s m e l).
Proof.
  unfold binary_round_aux.
  destruct (shr_fexp prec emax m e l) as [mrs' e'].
  destruct (shr_fexp prec emax _ e' loc_Exact) as [mrs'' e''].
  destruct (shr_m mrs''); [reflexivity | | reflexivity].
  destruct (e'' <=? emax - prec)%Z; reflexivity.
Qed.

Lemma SFmul_opp_l (prec emax : Z) (x y : spec_float) :
  SFmul prec emax (SFopp x) y = SFopp (SFmul prec emax x y).
Proof.
  destruct x as [sx | sx | | sx mx ex], y as [sy | sy | | sy my ey];
    cbn [SFmul SFopp]; try reflexivity;
    try (destruct sx, sy; reflexivity).
  replace (xorb (negb sx) sy) with (negb (xorb sx sy))
    by (destruct sx, sy; reflexivity).
  apply binary_round_aux_opp.
Qed.

Lemma float_mul_opp_l (x y : float) :
  PrimFloat.mul (PrimFloat.opp x) y = PrimFloat.opp (PrimFloat.mul x y).
Proof.
  apply Prim2SF_inj.
  rewrite mul_spec, !opp_spec, mul_spec. apply SFmul_opp_l.
Qed.

Lemma float_opp_involutive (x : float) :
  PrimFloat.opp (PrimFloat.opp x) = x.
Proof.
  apply Prim2SF_inj. rewrite !opp_spec.
  destruct (Prim2SF x) as [s | s | | s m e]; cbn [SFopp];
    try rewrite negb_involutive; reflexivity.
Qed.

Lemma Qopp_mul_opp (b s i : Q) :
  Qopp (Qmult (Qmult (Qopp b) s) i) = Qmult (Qmult b s) i.
Proof.
  destruct b as [bn bd], s as [sn sd], i as [n d].
  unfold Qopp, Qmult. cbn [Qnum Qden]. f_equal. ring.
Qed.

(** X1.  Whatever rate the policy answers, the derivatives returned by
    [sir_derivatives] balance: [dI/dt] is exactly what leaves [S] minus what
    enters [R], [dI/dt = (-dS/dt) - dR/dt], in exact arithmetic and, bit for
    bit, in binary64.  In exact arithmetic the three derivatives therefore
    sum to zero; in binary64 the sum is computed with rounding and need not
    be zero, as at [y = (0.99, 0.03, 0)], [gamma = 0.1], [beta = 0.5]. *)
Theorem sir_derivatives_balance :
  (forall (y : state Q) (time gamma : Q) (current_I : option Q),
     ode_all (fun d => I_of d = sub (neg (S_of d)) (R_of d) /\
                       S_of d + I_of d + R_of d == 0)
       (sir_derivatives y time gamma current_I)) /\
  (forall (y : state float) (time gamma : float) (current_I : option float),
     ode_all (fun d => I_of d = sub (neg (S_of d)) (R_of d))
       (sir_derivatives y time gamma current_I)) /\
  (let d := fst (run_ode (fun (_ _ : float) (p : unit) => (lit (5#10), p))
                   (sir_derivatives (lit (99#100), lit (3#100), lit 0)
                      (lit 0) (lit (1#10)) None) tt) in
   PrimFloat.eqb (add (add (S_of d) (I_of d)) (R_of d)) (lit 0) = false).
Proof.
  split; [| split].
  - intros [[s i] r] time gamma current_I. cbn. intros b. qnum.
    split; [| ring]. unfold Qminus. rewrite Qopp_mul_opp. reflexivity.
  - intros [[s i] r] time gamma current_I. cbn. intros b.
    rewrite !float_mul_opp_l, float_opp_involutive. reflexivity.
  - vm_compute. reflexivity.
Qed.

(** X2.  [sir_derivatives] asks the policy exactly once, at the given time
    and at [current_I] when one is passed (the state's own [I] otherwise);
    for a state with non-negative [S] and [I], a non-negative recovery rate
    and a non-negative answer, [dS/dt <= 0] and [dR/dt >= 0], and the sign of
    [dI/dt] is that of [beta * S - gamma]: the infection does not grow when
    [beta * S <= gamma] and does not shrink when [gamma <= beta * S]. *)
Theorem sir_derivatives_signs (y : state Q) (time gamma : Q)
    (current_I : option Q) :
  0 <= S_of y -> 0 <= I_of y -> 0 <= gamma ->
  exists k,
    sir_derivatives y time gamma current_I
      = Beta time (match current_I with Some c => c | None => I_of y end) k /\
    forall beta_t, 0 <= beta_t ->
      exists d, k beta_t = Return d /\
        S_of d <= 0 /\ 0 <= R_of d /\
        (beta_t * S_of y <= gamma -> I_of d <= 0) /\
        (gamma <= beta_t * S_of y -> 0 <= I_of d).
Proof.
  destruct y as [[s i] r]. cbn [S_of I_of fst snd]. intros Hs Hi Hg.
  eexists. split; [reflexivity |].
  intros b Hb. eexists. split; [reflexivity |].
  cbn [S_of I_of R_of fst snd]. qnum.
  split; [| split; [| split]].
  - assert (0 <= b * s * i).
    { apply Qmult_le_0_compat; [apply Qmult_le_0_compat |]; assumption. }
    lra.
  - apply Qmult_le_0_compat; assumption.
  - intros Hle. pose proof (Qmult_le_compat_r _ _ i Hle Hi). lra.
  - intros Hle. pose proof (Qmult_le_compat_r _ _ i Hle Hi). lra.
Qed.

Lemma sir_derivatives_signs_witness :
  exists k,
    sir_derivatives (T:=Q) (99#100, 1#100, 0) 0 (1#10) (Some (2#10))
      = Beta 0 (2#10) k /\
    exists d, k (5#10) = Return d /\ S_of d <= 0 /\ 0 <= R_of d /\
              0 <= I_of d.
Proof.
  destruct (@sir_derivatives_signs (99#100, 1#100, 0) 0 (1#10) (Some (2#10))
              ltac:(vm_compute; discriminate) ltac:(vm_compute; discriminate)
              ltac:(vm_compute; discriminate))
    as (k & Hk & Hd).
  exists k. split; [exact Hk |].
  destruct (Hd (5#10) ltac:(vm_compute; discriminate))
    as (d & Hr & H1 & H2 & _ & H4).
  exists d. split; [exact Hr |]. split; [exact H1 |]. split; [exact H2 |].
  apply H4. vm_compute. discriminate.
Defined.

(** ** The adaptive policy, further *)

Lemma np_clip_misordered (x lo hi : Q) : hi < lo -> np_clip x lo hi = hi.
Proof.
  intros Hb. unfold np_clip, np_minimum, np_maximum. qnum.
  destruct (Qltb lo x) eqn:E1;
    [apply Qltb_lt in E1 | apply Qltb_ge in E1].
  - replace (Qltb x hi) with false; [reflexivity |].
    symmetry. apply Qltb_ge. lra.
  - replace (Qltb lo hi) with false; [reflexivity |].
    symmetry. apply Qltb_ge. lra.
Qed.

(** X3.  The direction of one adaptive update, for a rate inside ordered,
    non-negative bounds and factors [0 <= reduction_factor <= 1],
    [0 <= increase_factor]: above the upper threshold the rate does not
    rise, and it falls when the reduced rate [b * (1 - reduction_factor)] is
    below [b] and [b] is above the floor, also when [I] is below the lower
    threshold at the same time; otherwise below the lower threshold it does
    not fall, and it rises when the raised rate [b * (1 + increase_factor)]
    is above [b] and [b] is below the ceiling; otherwise it keeps its
    value. *)
Theorem adaptive_response_direction (self : AdaptiveBeta.t Q) (time I : Q) :
  let b := AdaptiveBeta.current_beta self in
  let out := fst (AdaptiveBeta.call self time I) in
  0 <= AdaptiveBeta.beta_min self ->
  AdaptiveBeta.beta_min self <= b <= AdaptiveBeta.beta_max self ->
  0 <= AdaptiveBeta.reduction_factor self <= 1 ->
  0 <= AdaptiveBeta.increase_factor self ->
  (AdaptiveBeta.upper_threshold self < I ->
     out <= b /\
     (b * (1 - AdaptiveBeta.reduction_factor self) < b ->
      AdaptiveBeta.beta_min self < b -> out < b)) /\
  (~ AdaptiveBeta.upper_threshold self < I ->
   I < AdaptiveBeta.lower_threshold self ->
     b <= out /\
     (b < b * (1 + AdaptiveBeta.increase_factor self) ->
      b < AdaptiveBeta.beta_max self -> b < out)) /\
  (~ AdaptiveBeta.upper_threshold self < I ->
   ~ I < AdaptiveBeta.lower_threshold self ->
     out == b).
Proof.
  cbv zeta. intros Hmin [Hlo Hhi] [Hr0 Hr1] Hinc.
  unfold AdaptiveBeta.call, AdaptiveBeta.control. cbn [fst]. qnum.
  set (b := AdaptiveBeta.current_beta self) in *.
  set (lo := AdaptiveBeta.beta_min self) in *.
  set (hi := AdaptiveBeta.beta_max self) in *.
  set (rf := AdaptiveBeta.reduction_factor self) in *.
  set (inc := AdaptiveBeta.increase_factor self) in *.
  assert (Hord : lo <= hi) by lra.
  assert (Hb0 : 0 <= b) by lra.
  split; [| split].
  - intros Hu. apply Qltb_lt in Hu. rewrite Hu.
    assert (Hd : b * (1 - rf) <= b).
    { assert (0 <= b * rf) by (apply Qmult_le_0_compat; lra). lra. }
    destruct (np_clip_Q (b * (1 - rf)) Hord) as (C1 & C2 & C3 & C4).
    destruct (Qlt_le_dec (b * (1 - rf)) lo) as [L | L].
    + specialize (C1 L). split; [lra |]. intros; lra.
    + specialize (C3 (conj L (Qle_trans _ _ _ Hd Hhi))).
      split; [lra |]. intros Hrf Hbm. lra.
  - intros Hu Hl. apply Qnot_lt_le, Qltb_ge in Hu. apply Qltb_lt in Hl.
    rewrite Hu, Hl.
    assert (Hd : b <= b * (1 + inc)).
    { assert (0 <= b * inc) by (apply Qmult_le_0_compat; lra). lra. }
    destruct (np_clip_Q (b * (1 + inc)) Hord) as (C1 & C2 & C3 & C4).
    destruct (Qlt_le_dec hi (b * (1 + inc))) as [L | L].
    + specialize (C2 L). split; [lra |]. intros; lra.
    + specialize (C3 (conj (Qle_trans _ _ _ Hlo Hd) L)).
      split; [lra |]. intros Hi0 Hbm. lra.
  - intros Hu Hl. apply Qnot_lt_le, Qltb_ge in Hu.
    apply Qnot_lt_le, Qltb_ge in Hl. rewrite Hu, Hl.
    apply (np_clip_Q b Hord). split; assumption.
Qed.

Lemma adaptive_response_direction_witness :
  fst (AdaptiveBeta.call (T:=Q) AdaptiveBeta.default 0 (2#10))
    < AdaptiveBeta.current_beta (T:=Q) AdaptiveBeta.default.
Proof.
  refine (proj2 (proj1 (@adaptive_response_direction AdaptiveBeta.default 0
                          (2#10) _ _ _ _) _) _ _);
    try reflexivity; try (vm_compute; discriminate);
    split; vm_compute; discriminate.
Defined.

Lemma call_many_cons (self : AdaptiveBeta.t Q) (c : Q * Q)
    (calls : list (Q * Q)) :
  call_many self (c :: calls)
  = call_many (snd (AdaptiveBeta.call self (fst c) (snd c))) calls.
Proof. reflexivity. Qed.

(** X4.  When repeated evaluation leaves the rate alone: for a rate inside
    ordered bounds and an infection level inside the band (neither above the
    upper nor below the lower threshold), any number of calls at that level
    returns the rate it started from; and a rate sitting at a non-negative
    floor stays at the floor under any number of calls above the upper
    threshold (with [0 <= reduction_factor <= 1]). *)
Theorem adaptive_call_fixed_points (self : AdaptiveBeta.t Q) (I : Q)
    (times : list Q) :
  let self' := call_many self (map (fun t => (t, I)) times) in
  AdaptiveBeta.beta_min self <= AdaptiveBeta.beta_max self ->
  (AdaptiveBeta.beta_min self <= AdaptiveBeta.current_beta self
     <= AdaptiveBeta.beta_max self ->
   ~ AdaptiveBeta.upper_threshold self < I ->
   ~ I < AdaptiveBeta.lower_threshold self ->
   AdaptiveBeta.current_beta self' == AdaptiveBeta.current_beta self) /\
  (AdaptiveBeta.current_beta self == AdaptiveBeta.beta_min self ->
   0 <= AdaptiveBeta.beta_min self ->
   0 <= AdaptiveBeta.reduction_factor self <= 1 ->
   AdaptiveBeta.upper_threshold self < I ->
   AdaptiveBeta.current_beta self' == AdaptiveBeta.beta_min self).
Proof.
  cbv zeta. intros Hord. split.
  - revert self Hord. induction times as [| t times IH];
      intros self Hord Hb Hu Hl; [reflexivity |].
    cbn [map]. rewrite call_many_cons. cbn [fst snd].
    assert (E : AdaptiveBeta.current_beta (snd (AdaptiveBeta.call self t I))
                == AdaptiveBeta.current_beta self).
    { unfold AdaptiveBeta.call, AdaptiveBeta.control.
      cbn [snd AdaptiveBeta.current_beta AdaptiveBeta.set_current_beta]. qnum.
      rewrite (proj2 (Qltb_ge _ _) (Qnot_lt_le _ _ Hu)).
      rewrite (proj2 (Qltb_ge _ _) (Qnot_lt_le _ _ Hl)).
      apply (np_clip_Q (AdaptiveBeta.current_beta self) Hord). exact Hb. }
    rewrite <- E. apply IH; cbn [AdaptiveBeta.call snd
      AdaptiveBeta.beta_min AdaptiveBeta.beta_max AdaptiveBeta.upper_threshold
      AdaptiveBeta.lower_threshold AdaptiveBeta.set_current_beta];
      try assumption.
    fold (snd (AdaptiveBeta.call self t I)). rewrite E. exact Hb.
  - revert self Hord. induction times as [| t times IH];
      intros self Hord Hb Hmin Hrf Hu; [exact Hb |].
    cbn [map]. rewrite call_many_cons. cbn [fst snd].
    assert (E : AdaptiveBeta.current_beta (snd (AdaptiveBeta.call self t I))
                == AdaptiveBeta.beta_min self).
    { unfold AdaptiveBeta.call, AdaptiveBeta.control.
      cbn [snd AdaptiveBeta.current_beta AdaptiveBeta.set_current_beta]. qnum.
      rewrite (proj2 (Qltb_lt _ _) Hu).
      set (b := AdaptiveBeta.current_beta self) in *.
      set (rf := AdaptiveBeta.reduction_factor self) in *.
      assert (Hd : b * (1 - rf) <= b).
      { assert (0 <= b * rf) by (apply Qmult_le_0_compat; lra). lra. }
      destruct (np_clip_Q (b * (1 - rf)) Hord) as (C1 & C2 & C3 & C4).
      destruct (Qlt_le_dec (b * (1 - rf)) (AdaptiveBeta.beta_min self))
        as [L | L]; [exact (C1 L) |].
      rewrite C3; lra. }
    apply (IH (snd (AdaptiveBeta.call self t I))); cbn [AdaptiveBeta.call snd
      AdaptiveBeta.beta_min AdaptiveBeta.beta_max AdaptiveBeta.upper_threshold
      AdaptiveBeta.reduction_factor AdaptiveBeta.set_current_beta
      AdaptiveBeta.current_beta];
      try assumption.
Qed.

Lemma adaptive_call_fixed_points_witness :
  AdaptiveBeta.current_beta
    (call_many (T:=Q) AdaptiveBeta.default [(0, 1#10); (1, 1#10); (2, 1#10)])
  == 5#10.
Proof.
  refine (proj1 (@adaptive_call_fixed_points AdaptiveBeta.default (1#10)
                   [0; 1; 2] _) _ _ _).
  - vm_compute. discriminate.
  - split; vm_compute; discriminate.
  - vm_compute. discriminate.
  - vm_compute. discriminate.
Defined.

(** X5.  With bounds given in the wrong order ([beta_max < beta_min]) the
    clip makes every call return [beta_max], whatever the current rate and
    the infection level are. *)
Theorem adaptive_call_misordered_bounds (self : AdaptiveBeta.t Q)
    (time I : Q) :
  AdaptiveBeta.beta_max self < AdaptiveBeta.beta_min self ->
  AdaptiveBeta.call self time I
  = (AdaptiveBeta.beta_max self,
     AdaptiveBeta.set_current_beta self (AdaptiveBeta.beta_max self)).
Proof.
  intros Hb. unfold AdaptiveBeta.call.
  rewrite (np_clip_misordered _ Hb). reflexivity.
Qed.

Lemma adaptive_call_misordered_bounds_witness :
  fst (AdaptiveBeta.call
         (AdaptiveBeta.init (T:=Q) (5#10) (15#100) (5#100) (4#10) (2#10)
            (7#10) (1#10)) 0 (1#100))
  = 1#10.
Proof.
  rewrite (@adaptive_call_misordered_bounds
             (AdaptiveBeta.init (5#10) (15#100) (5#100) (4#10) (2#10)
                (7#10) (1#10)) 0 (1#100) eq_refl).
  reflexivity.
Defined.

Section ResetRoundTrip.
Context {T : Type} `{PyNum T}.

Lemma reset_call_many (self : AdaptiveBeta.t T) (calls : list (T * T)) :
  AdaptiveBeta.reset (call_many self calls) = AdaptiveBeta.reset self.
Proof.
  revert self. induction calls as [| c calls IH]; intros self;
    [reflexivity |].
  unfold call_many in *. cbn [fold_left]. rewrite IH. reflexivity.
Qed.
End ResetRoundTrip.

(** X6.  [reset] undoes any history of calls: after any sequence of
    evaluations (at any times and infection levels) a reset gives back the
    object exactly as the constructor built it, in every number type; no
    call ever changes a threshold, a factor, a bound or [beta_0]. *)
Theorem reset_restores_constructed (T : Type) (N : PyNum T)
    (beta_0 upper_threshold lower_threshold reduction_factor increase_factor
       beta_min beta_max : T) (calls : list (T * T)) :
  let fresh := AdaptiveBeta.init beta_0 upper_threshold lower_threshold
                 reduction_factor increase_factor beta_min beta_max in
  AdaptiveBeta.reset (call_many fresh calls) = fresh /\
  forall self : AdaptiveBeta.t T,
    call_many self calls
    = AdaptiveBeta.set_current_beta self
        (AdaptiveBeta.current_beta (call_many self calls)).
Proof.
  cbv zeta. split.
  - rewrite reset_call_many. reflexivity.
  - intros self.
    pose proof (reset_call_many self calls) as E.
    destruct (call_many self calls) as [a1 a2 a3 a4 a5 a6 a7 a8].
    destruct self as [b1 b2 b3 b4 b5 b6 b7 b8].
    unfold AdaptiveBeta.reset, AdaptiveBeta.set_current_beta in *.
    cbn in *. injection E as -> -> -> -> -> -> ->. reflexivity.
Qed.

(** ** The drivers and the policy object *)

Section Triples.
Context {T : Type} `{PyNum T}.
Variable Inv : beta_func T -> Prop.

Lemma triple_ret {A} (a : A) (Post : A -> Prop) :
  Post a -> triple Inv (ret a) Post.
Proof.
  intros Ha p Hp. split; [exact Hp |]. cbn. intros a' E.
  injection E as <-. exact Ha.
Qed.

Lemma triple_lift {A} (r : result A) (Post : A -> Prop) :
  (forall a, r = Ok a -> Post a) -> triple Inv (lift r) Post.
Proof. intros Hr p Hp. split; [exact Hp | exact Hr]. Qed.

Lemma triple_bind {A B} (m : M T A) (f : A -> M T B) (Mid : A -> Prop)
    (Post : B -> Prop) :
  triple Inv m Mid -> (forall a, Mid a -> triple Inv (f a) Post) ->
  triple Inv (bind m f) Post.
Proof.
  intros Hm Hf p Hp. unfold bind. destruct (Hm p Hp) as [Hi Ha].
  destruct (m p) as [[a | e |] p']; cbn [fst snd] in *.
  - apply (Hf a (Ha a eq_refl) p' Hi).
  - split; [exact Hi | discriminate].
  - split; [exact Hi | discriminate].
Qed.

Lemma triple_integrate {A}
    (beta : T -> T -> beta_func T -> T * beta_func T) (m : ode T A) :
  (forall time i p, Inv p -> Inv (snd (beta time i p))) ->
  triple Inv (integrate beta m) (fun _ => True).
Proof.
  intros Hb p Hp. unfold integrate.
  assert (Hr : Inv (snd (run_ode beta m p))).
  { revert p Hp. induction m as [a | time i k IH]; intros p Hp; cbn.
    - exact Hp.
    - specialize (Hb time i p Hp). destruct (beta time i p) as [b p'].
      apply IH, Hb. }
  destruct (run_ode beta m p) as [a p']. split; [exact Hr | auto].
Qed.

Lemma triple_get_current_beta (Post : T -> Prop) :
  (forall b, Inv (Adaptive b) -> Post (AdaptiveBeta.current_beta b)) ->
  triple Inv get_current_beta Post.
Proof.
  intros Hb [b | b | b] Hp; (split; [exact Hp |]); cbn; try discriminate.
  intros a E. injection E as <-. apply Hb, Hp.
Qed.
End Triples.

Section RateBounds.
Variable base : AdaptiveBeta.t Q.
Hypothesis bounds_ordered :
  AdaptiveBeta.beta_min base <= AdaptiveBeta.beta_max base.

Let in_bounds (x : Q) : Prop :=
  AdaptiveBeta.beta_min base <= x <= AdaptiveBeta.beta_max base.

Let bounded (p : beta_func Q) : Prop :=
  exists b, p = Adaptive b /\
    AdaptiveBeta.reset b = AdaptiveBeta.reset base /\
    in_bounds (AdaptiveBeta.current_beta b).

Lemma reset_eq_bounds (b : AdaptiveBeta.t Q) :
  AdaptiveBeta.reset b = AdaptiveBeta.reset base ->
  AdaptiveBeta.beta_min b = AdaptiveBeta.beta_min base /\
  AdaptiveBeta.beta_max b = AdaptiveBeta.beta_max base.
Proof.
  destruct b, base. unfold AdaptiveBeta.reset, AdaptiveBeta.set_current_beta.
  cbn. intros E. injection E as -> -> -> -> -> -> ->. split; reflexivity.
Qed.

Lemma call_beta_bounded (time I : Q) (p : beta_func Q) :
  bounded p -> bounded (snd (call_beta time I p)).
Proof.
  intros (b & -> & Hcfg & Hb). cbn.
  exists (snd (AdaptiveBeta.call b time I)).
  split; [reflexivity |]. split; [exact Hcfg |].
  destruct (@reset_eq_bounds b Hcfg) as [E1 E2].
  unfold in_bounds. rewrite <- E1, <- E2.
  apply adaptive_call_in_bounds. rewrite E1, E2. exact bounds_ordered.
Qed.

Lemma while_loop_bounded (solve_sir : solver Q) (fuel : nat)
    (t_end gamma control_interval dt : Q) :
  forall v : loop_vars Q,
    Forall in_bounds (beta_full v) ->
    triple bounded
      (while_loop solve_sir fuel t_end gamma control_interval dt v)
      (fun v' => Forall in_bounds (beta_full v')).
Proof.
  induction fuel as [| fuel IH]; intros v Hv; cbn [while_loop];
    destruct (lt (current_t v) t_end).
  - apply triple_lift. discriminate.
  - apply triple_ret. exact Hv.
  - eapply triple_bind; [| intros v' Hv'; apply IH; exact Hv'].
    unfold loop_body.
    eapply triple_bind.
    { apply triple_integrate. intros. now apply call_beta_bounded. }
    intros [segment_t segment_sol] _.
    eapply triple_bind with (Mid := in_bounds).
    { apply triple_get_current_beta.
      intros b (b' & E & _ & Hb). injection E as <-. exact Hb. }
    intros cb Hcb.
    eapply triple_bind; [apply triple_lift; intros; exact I |].
    intros last_y _. apply triple_ret. cbn [beta_full].
    apply Forall_app. split; [exact Hv |].
    apply Forall_forall. intros x Hx. apply repeat_spec in Hx. now subst x.
  - apply triple_ret. exact Hv.
Qed.
End RateBounds.

(** X7.  When the configured baseline lies inside the rate bounds, every
    rate recorded in the trajectory of an adaptive run lies inside the
    bounds, and so does the rate the policy is left with, however the run
    ends (trajectory, exception or loop still running) and whatever the
    integrator does. *)
Theorem adaptive_run_rates_bounded (solve_sir : solver Q) (fuel : nat)
    (t_span : Q * Q) (y0 : state Q) (gamma control_interval dt : Q)
    (b : AdaptiveBeta.t Q) :
  AdaptiveBeta.beta_min b <= AdaptiveBeta.beta_0 b
    <= AdaptiveBeta.beta_max b ->
  let out := run_adaptive_scenario solve_sir fuel t_span y0 gamma
               control_interval dt (Adaptive b) in
  (forall r, fst out = Ok r ->
     Forall (fun x => AdaptiveBeta.beta_min b <= x <= AdaptiveBeta.beta_max b)
       (r_beta r)) /\
  exists b', snd out = Adaptive b' /\
    AdaptiveBeta.reset b' = AdaptiveBeta.reset b /\
    AdaptiveBeta.beta_min b <= AdaptiveBeta.current_beta b'
      <= AdaptiveBeta.beta_max b.
Proof.
  intros Hb. cbv zeta.
  assert (Hord : AdaptiveBeta.beta_min b <= AdaptiveBeta.beta_max b)
    by (destruct Hb; eapply Qle_trans; eauto).
  unfold run_adaptive_scenario. unfold bind at 1. cbn [reset_beta].
  destruct t_span as [t_start t_end].
  set (inv := fun q : beta_func Q =>
         exists b', q = Adaptive b' /\
           AdaptiveBeta.reset b' = AdaptiveBeta.reset b /\
           AdaptiveBeta.beta_min b <= AdaptiveBeta.current_beta b'
             <= AdaptiveBeta.beta_max b).
  set (post := fun r : scenario Q =>
         Forall (fun x => AdaptiveBeta.beta_min b <= x
                          <= AdaptiveBeta.beta_max b) (r_beta r)).
  match goal with
  | |- context [bind ?m ?f (Adaptive (AdaptiveBeta.reset b))] =>
      assert (Ht : triple inv (bind m f) post)
  end.
  { eapply triple_bind.
    { apply (@while_loop_bounded b Hord). constructor. }
    intros v Hv. eapply triple_bind; [apply triple_lift; intros; exact I |].
    intros st _. apply triple_ret. exact Hv. }
  assert (Hinv : inv (Adaptive (AdaptiveBeta.reset b))).
  { exists (AdaptiveBeta.reset b). split; [reflexivity |].
    split; [reflexivity | exact Hb]. }
  destruct (Ht _ Hinv) as [Hi Hr].
  split; [exact Hr | exact Hi].
Qed.

Lemma adaptive_run_rates_bounded_witness :
  exists b',
    snd (run_adaptive_scenario solve_sir_heun 3 (0, 1) (8#10, 2#10, 0)
           (1#10) (4#10) (2#10) (Adaptive AdaptiveBeta.default))
      = Adaptive b' /\
    AdaptiveBeta.reset b' = AdaptiveBeta.reset AdaptiveBeta.default /\
    AdaptiveBeta.beta_min (T:=Q) AdaptiveBeta.default
      <= AdaptiveBeta.current_beta b'
      <= AdaptiveBeta.beta_max (T:=Q) AdaptiveBeta.default.
Proof.
  assert (H : AdaptiveBeta.beta_min (T:=Q) AdaptiveBeta.default
              <= AdaptiveBeta.beta_0 (T:=Q) AdaptiveBeta.default
              <= AdaptiveBeta.beta_max (T:=Q) AdaptiveBeta.default).
  { split; vm_compute; discriminate. }
  pose proof (@adaptive_run_rates_bounded solve_sir_heun 3 (0, 1)
                  (8#10, 2#10, 0) (1#10) (4#10) (2#10) AdaptiveBeta.default
                  H) as K.
  cbv zeta in K.
  destruct K as [_ K].
  exact K.
Defined.

(** ** The scheduled policy, further *)

(** X8.  For a non-negative baseline, a reduction in [[0, 1]] and a
    non-negative rebound factor, the constructor puts the intervention rate
    in [[0, beta_0]] and the rebound rate at or above it, and the policy
    never returns less than the intervention rate; until the rebound time
    (at all times when there is none) what it returns is at most the
    baseline; without a rebound time the rebound rate is the intervention
    rate. *)
Theorem scheduled_rate_range (beta_0 intervention_time
    intervention_reduction : Q) (rebound_time : option Q)
    (rebound_factor time I : Q) :
  0 <= beta_0 ->
  0 <= intervention_reduction <= 1 ->
  0 <= rebound_factor ->
  let p := NonStationaryBeta.init beta_0 intervention_time
             intervention_reduction rebound_time rebound_factor in
  0 <= NonStationaryBeta.beta_intervention p <= beta_0 /\
  NonStationaryBeta.beta_intervention p <= NonStationaryBeta.beta_rebound p /\
  NonStationaryBeta.beta_intervention p <= NonStationaryBeta.call p time I /\
  (match rebound_time with Some rt => time < rt | None => True end ->
   NonStationaryBeta.call p time I <= beta_0) /\
  (rebound_time = None ->
   NonStationaryBeta.beta_rebound p = NonStationaryBeta.beta_intervention p).
Proof.
  intros Hb [Hr0 Hr1] Hf0. cbv zeta.
  unfold NonStationaryBeta.call, NonStationaryBeta.init.
  cbn [NonStationaryBeta.beta_intervention NonStationaryBeta.beta_rebound
       NonStationaryBeta.beta_0 NonStationaryBeta.intervention_time
       NonStationaryBeta.rebound_time]. qnum.
  set (bi := beta_0 * (1 - intervention_reduction)).
  assert (H0 : 0 <= bi) by (apply Qmult_le_0_compat; lra).
  assert (H1 : bi <= beta_0).
  { assert (0 <= beta_0 * intervention_reduction)
      by (apply Qmult_le_0_compat; lra).
    unfold bi. lra. }
  assert (H2 : 0 <= (beta_0 - bi) * rebound_factor)
    by (apply Qmult_le_0_compat; lra).
  assert (H4 : bi <= match rebound_time with
                     | Some _ => bi + (beta_0 - bi) * rebound_factor
                     | None => bi
                     end).
  { destruct rebound_time; lra. }
  split; [split; assumption |]. split; [exact H4 |].
  split; [| split].
  - destruct (Qltb time intervention_time); [lra |].
    destruct rebound_time as [rt |]; [destruct (Qltb time rt) |]; lra.
  - intros Hrt. destruct (Qltb time intervention_time); [lra |].
    destruct rebound_time as [rt |]; [| lra].
    apply Qltb_lt in Hrt. rewrite Hrt. lra.
  - intros ->. reflexivity.
Qed.

Lemma scheduled_rate_range_witness :
  let p := NonStationaryBeta.init (T:=Q) (5#10) 50 (6#10) (Some 100) (5#10) in
  NonStationaryBeta.beta_intervention p <= NonStationaryBeta.call p 120 0.
Proof.
  cbv zeta.
  assert (Hb : 0 <= 5#10) by (vm_compute; discriminate).
  assert (Hr : 0 <= 6#10 <= 1) by (split; vm_compute; discriminate).
  assert (Hf : 0 <= 5#10) by (vm_compute; discriminate).
  pose proof (@scheduled_rate_range (5#10) 50 (6#10) (Some 100) (5#10) 120 0
                Hb Hr Hf) as K.
  cbv zeta in K. exact (proj1 (proj2 (proj2 K))).
Defined.

(** X9.  A rebound time at or before the intervention time leaves the
    intervention phase empty: the policy returns [beta_0] before the
    intervention time and the rebound rate from it on, and the intervention
    rate at no time. *)
Theorem scheduled_rebound_first (p : NonStationaryBeta.t Q) (rt time I : Q) :
  NonStationaryBeta.rebound_time p = Some rt ->
  rt <= NonStationaryBeta.intervention_time p ->
  (time < NonStationaryBeta.intervention_time p ->
     NonStationaryBeta.call p time I = NonStationaryBeta.beta_0 p) /\
  (NonStationaryBeta.intervention_time p <= time ->
     NonStationaryBeta.call p time I = NonStationaryBeta.beta_rebound p).
Proof.
  intros Hrt Hle. unfold NonStationaryBeta.call. rewrite Hrt. qnum. split.
  - intros Hlt. apply Qltb_lt in Hlt. rewrite Hlt. reflexivity.
  - intros Hge.
    rewrite (proj2 (Qltb_ge _ _) Hge).
    rewrite (proj2 (Qltb_ge time rt) (Qle_trans _ _ _ Hle Hge)). reflexivity.
Qed.

Lemma scheduled_rebound_first_witness :
  let p := NonStationaryBeta.init (T:=Q) (5#10) 50 (6#10) (Some 30) (5#10) in
  NonStationaryBeta.call p 50 0 = NonStationaryBeta.beta_rebound p.
Proof.
  cbv zeta.
  apply (proj2 (@scheduled_rebound_first
                  (NonStationaryBeta.init (5#10) 50 (6#10) (Some 30) (5#10))
                  30 50 0 eq_refl ltac:(vm_compute; discriminate))).
  vm_compute. discriminate.
Defined.

(** ** Summary statistics, further *)

Lemma increasing_le (l : list Q) :
  increasing l ->
  forall i j a b, (i <= j)%nat ->
    nth_error l i = Some a -> nth_error l j = Some b -> a <= b.
Proof.
  intros Hinc i j a b Hij Ha Hb.
  destruct (Nat.eq_dec i j) as [-> | Hne].
  - rewrite Ha in Hb. injection Hb as <-. apply Qle_refl.
  - apply Qlt_le_weak.
    apply (@increasing_pairwise l Hinc i j a b); [lia | exact Ha | exact Hb].
Qed.

(** X10.  On a trajectory with strictly increasing times the statistics are
    ordered in time: the peak time lies in [[t_start, t_end]], the duration
    is at least the time from the start to the peak and at most the whole
    span, and when the peak is positive the duration is measured either to
    the end of the span or to a sample strictly after the peak. *)
Theorem summary_statistics_order (t_start : Q) (ts : list Q) (y : state Q)
    (ys : list (state Q)) :
  List.length ts = List.length ys ->
  increasing (t_start :: ts) ->
  let t_end := last (t_start :: ts) t_start in
  exists st,
    compute_summary_statistics (t_start :: ts) (y :: ys) = Ok st /\
    t_start <= peak_time st <= t_end /\
    peak_time st - t_start <= duration st <= t_end - t_start /\
    (0 < peak_infection st ->
     duration st = t_end - t_start \/
     exists tk, In tk ts /\ peak_time st < tk /\
                duration st = tk - t_start).
Proof.
  intros Hlen Hinc. cbv zeta.
  assert (Hne : y :: ys <> []) by congruence.
  assert (Hl : List.length (t_start :: ts) = List.length (y :: ys))
    by (cbn; lia).
  destruct (@summary_statistics_correct _ _ Hne Hl)
    as (st & p & Hst & Hpk & Hmax & Hfirst & Hpt & Hfs & Hdur).
  exists st. split; [exact Hst |].
  set (t := t_start :: ts) in *.
  assert (H0 : nth_error t 0 = Some t_start) by reflexivity.
  assert (Hend : nth_error t (List.length t - 1) = Some (last t t_start))
    by (apply nth_error_last_eq; discriminate).
  assert (Hp : (p <= List.length t - 1)%nat).
  { assert (p < List.length t)%nat
      by (apply nth_error_Some; rewrite Hpt; discriminate). lia. }
  assert (Hpt0 : t_start <= peak_time st)
    by (apply (@increasing_le t Hinc 0%nat p); auto with arith).
  assert (Hpt1 : peak_time st <= last t t_start)
    by (apply (@increasing_le t Hinc p (List.length t - 1)%nat); auto).
  split; [split; assumption |].
  destruct Hdur as [(k & x & tk & t0 & Hk & Hx & Hlt & Hb & Htk & Ht0 & Hd)
                   | (Hnever & tl & t0 & Htl & Ht0 & Hd)].
  - rewrite H0 in Ht0. injection Ht0 as <-.
    assert (Hkl : (k <= List.length t - 1)%nat).
    { assert (k < List.length t)%nat
        by (apply nth_error_Some; rewrite Htk; discriminate). lia. }
    assert (Hk1 : peak_time st <= tk)
      by (apply (@increasing_le t Hinc p k); auto).
    assert (Hk2 : tk <= last t t_start)
      by (apply (@increasing_le t Hinc k (List.length t - 1)%nat); auto).
    split; [rewrite Hd; split; lra |].
    intros Hpos. right. exists tk.
    destruct (Nat.eq_dec p k) as [-> | Hpk'].
    + rewrite Hpk in Hx. injection Hx as <-. lra.
    + assert (Hpk2 : (p < k)%nat) by lia.
      split; [| split; [| exact Hd]].
      * destruct k as [| k']; [lia |]. unfold t in Htk. cbn [nth_error] in Htk.
        exact (nth_error_In _ _ Htk).
      * apply (@increasing_pairwise t Hinc p k); auto.
  - rewrite H0 in Ht0. injection Ht0 as <-.
    assert (Etl : tl = last t t_start) by congruence. subst tl.
    rewrite Hd. split; [split; lra |]. intros _. left. reflexivity.
Qed.

Lemma summary_statistics_order_witness :
  exists st,
    compute_summary_statistics [0; 1; 2; 3]
      [(9#10, 1#10, 0); (6#10, 3#10, 1#10); (5#10, 3#10, 2#10);
       (5#10, 1#10000, 4999#10000)] = Ok st /\
    peak_time st - 0 <= duration st <= 3 - 0.
Proof.
  assert (Hinc : increasing [0; 1; 2; 3]).
  { cbn. repeat split. }
  destruct (@summary_statistics_order 0 [1; 2; 3] (9#10, 1#10, 0)
              [(6#10, 3#10, 1#10); (5#10, 3#10, 2#10);
               (5#10, 1#10000, 4999#10000)] eq_refl Hinc)
    as (st & Hst & _ & Hd & _).
  exists st. split; [exact Hst | exact Hd].
Defined.

(** X11.  What [compute_summary_statistics] does with malformed arrays, in
    every number type: on an empty solution it raises [ValueError] (from
    [np.argmax]) whatever the time array is; on a non-empty solution with
    an empty time array it raises [IndexError]; so statistics come back only
    when both arrays are non-empty. *)
Theorem summary_statistics_errors (T : Type) (N : PyNum T) :
  (forall t : list T,
     compute_summary_statistics t []
     = Raise (ValueError "attempt to get an argmax of an empty sequence")) /\
  (forall (y : state T) (ys : list (state T)),
     compute_summary_statistics [] (y :: ys)
     = Raise (IndexError "index out of bounds")) /\
  (forall (t : list T) (solution : list (state T)) (st : stats T),
     compute_summary_statistics t solution = Ok st ->
     solution <> [] /\ t <> []).
Proof.
  assert (H1 : forall t : list T,
    compute_summary_statistics t []
    = Raise (ValueError "attempt to get an argmax of an empty sequence"))
    by reflexivity.
  assert (H2 : forall (y : state T) (ys : list (state T)),
    compute_summary_statistics [] (y :: ys)
    = Raise (IndexError "index out of bounds")).
  { intros y ys. unfold compute_summary_statistics.
    cbn [map np_argmax rbind].
    set (idx := argmax_from 0 (I_of y) 1 (map I_of ys)).
    unfold index at 1.
    destruct (nth_error (I_of y :: map I_of ys) idx); cbn [rbind];
      [| reflexivity].
    unfold index at 1. destruct idx; reflexivity. }
  split; [exact H1 |]. split; [exact H2 |].
  intros t solution st Hst. split; intros ->.
  - rewrite H1 in Hst. discriminate.
  - destruct solution as [| y ys].
    + rewrite H1 in Hst. discriminate.
    + rewrite H2 in Hst. discriminate.
Qed.

Lemma summary_statistics_errors_witness :
  [(9#10, 1#10, 0); (6#10, 3#10, 1#10)] <> ([] : list (state Q)) /\
  [0; 1] <> ([] : list Q).
Proof.
  apply (proj2 (proj2 (@summary_statistics_errors Q _)) [0; 1]
           [(9#10, 1#10, 0); (6#10, 3#10, 1#10)]
           {| peak_infection := 3#10; peak_time := 1;
              final_size := 1#10; duration := 1 - 0 |}).
  reflexivity.
Defined.

(** ** The drivers, further *)

(** X12.  The adaptive driver needs a policy with [reset]: handed a constant
    or a scheduled policy it raises [AttributeError] at its first statement,
    before any integration (the outcome does not depend on the integrator,
    the span or the state), and leaves the policy as it was; the same holds
    through [run_scenario] with kind ['adaptive']. *)
Theorem adaptive_driver_needs_reset (T : Type) (N : PyNum T)
    (solve_sir : solver T) (fuel : nat) (t_span : T * T) (y0 : state T)
    (gamma control_interval dt : T) (p : beta_func T) :
  (forall b, p <> Adaptive b) ->
  exists msg,
    run_adaptive_scenario solve_sir fuel t_span y0 gamma control_interval dt p
      = (Raise (AttributeError msg), p) /\
    run_scenario solve_sir fuel "adaptive" t_span y0 gamma control_interval
      dt p
      = (Raise (AttributeError msg), p).
Proof.
  intros Hp. destruct p as [b | b | b].
  - eexists. split; reflexivity.
  - eexists. split; reflexivity.
  - exfalso. apply (Hp b). reflexivity.
Qed.

Lemma adaptive_driver_needs_reset_witness :
  exists msg,
    run_scenario solve_sir_heun 5 "adaptive" (0, 200) (99#100, 1#100, 0)
      (1#10) 5 (1#10) (Static (StaticBeta.init (5#10)))
    = (Raise (AttributeError msg), Static (StaticBeta.init (5#10))).
Proof.
  destruct (@adaptive_driver_needs_reset Q _ solve_sir_heun 5 (0, 200)
              (99#100, 1#100, 0) (1#10) 5 (1#10)
              (Static (StaticBeta.init (5#10)))
              ltac:(intros b; discriminate)) as (msg & _ & Hm).
  exists msg. exact Hm.
Defined.

Lemma map_const_repeat {A B} (c : B) (l : list A) :
  map (fun _ => c) l = repeat c (List.length l).
Proof.
  induction l as [| a l IH]; [reflexivity |]. cbn. now rewrite IH.
Qed.

Section Stateless.
Context {T : Type} `{PyNum T}.
Variable p : beta_func T.
Hypothesis p_stateless : forall time I, snd (call_beta time I p) = p.

Lemma run_ode_stateless {A} (m : ode T A) :
  snd (run_ode call_beta m p) = p.
Proof.
  induction m as [a | time i k IH]; cbn; [reflexivity |].
  pose proof (p_stateless time i) as E.
  destruct (call_beta time i p) as [b p']. cbn in E. subst p'. apply IH.
Qed.

Lemma map_M_stateless (times : list T) :
  map_M (fun ti q => let (b, q') := call_beta ti (lit 0) q in (Ok b, q'))
    times p
  = (Ok (map (fun ti => fst (call_beta ti (lit 0) p)) times), p).
Proof.
  induction times as [| ti times IH]; [reflexivity |].
  cbn [map_M map]. unfold bind at 1.
  pose proof (p_stateless ti (lit 0)) as E.
  destruct (call_beta ti (lit 0) p) as [b p']. cbn in E. subst p'.
  unfold bind at 1. rewrite IH. reflexivity.
Qed.

Lemma run_static_scenario_stateless (solve_sir : solver T) (t_span : T * T)
    (y0 : state T) (gamma dt : T) :
  let seg := fst (run_ode call_beta (solve_sir t_span y0 gamma dt) p) in
  let out := run_static_scenario solve_sir t_span y0 gamma dt p in
  snd out = p /\
  fst out
  = rbind (compute_summary_statistics (fst seg) (snd seg))
      (fun st =>
         Ok {| r_t := fst seg;
               r_S := map S_of (snd seg);
               r_I := map I_of (snd seg);
               r_R := map R_of (snd seg);
               r_beta := map (fun ti => fst (call_beta ti (lit 0) p))
                           (fst seg);
               r_stats := st |}).
Proof.
  cbv zeta.
  enough (E : run_static_scenario solve_sir t_span y0 gamma dt p
              = (rbind (compute_summary_statistics
                          (fst (fst (run_ode call_beta
                                       (solve_sir t_span y0 gamma dt) p)))
                          (snd (fst (run_ode call_beta
                                       (solve_sir t_span y0 gamma dt) p))))
                   (fun st =>
                      Ok {| r_t := fst (fst (run_ode call_beta
                                      (solve_sir t_span y0 gamma dt) p));
                            r_S := map S_of (snd (fst (run_ode call_beta
                                      (solve_sir t_span y0 gamma dt) p)));
                            r_I := map I_of (snd (fst (run_ode call_beta
                                      (solve_sir t_span y0 gamma dt) p)));
                            r_R := map R_of (snd (fst (run_ode call_beta
                                      (solve_sir t_span y0 gamma dt) p)));
                            r_beta :=
                              map (fun ti => fst (call_beta ti (lit 0) p))
                                (fst (fst (run_ode call_beta
                                      (solve_sir t_span y0 gamma dt) p)));
                            r_stats := st |}), p))
    by (rewrite E; split; reflexivity).
  unfold run_static_scenario, integrate, bind.
  pose proof (run_ode_stateless (solve_sir t_span y0 gamma dt)) as E.
  destruct (run_ode call_beta (solve_sir t_span y0 gamma dt) p)
    as [[t solution] p']. cbn [fst snd] in *. subst p'.
  rewrite map_M_stateless. unfold lift, ret.
  destruct (compute_summary_statistics t solution); reflexivity.
Qed.
End Stateless.

(** X13.  With a policy that has no state (constant or scheduled), the
    static and the non-stationary driver, reached through [run_scenario],
    leave the policy object unchanged, return the integrator's time grid and
    the columns of its solution, and report as rate trace the policy
    evaluated at each output time (with [I = 0]): for the constant policy
    [beta_0] at every sample.  The run fails exactly when the statistics
    fail. *)
Theorem stateless_scenarios (T : Type) (N : PyNum T) (solve_sir : solver T)
    (fuel : nat) (scenario_type : string) (t_span : T * T) (y0 : state T)
    (gamma control_interval dt : T) (p : beta_func T) :
  scenario_type = "static"%string \/ scenario_type = "nonstationary"%string ->
  (forall b, p <> Adaptive b) ->
  let seg := fst (run_ode call_beta (solve_sir t_span y0 gamma dt) p) in
  let out := run_scenario solve_sir fuel scenario_type t_span y0 gamma
               control_interval dt p in
  snd out = p /\
  (forall e, fst out = Raise e <->
             compute_summary_statistics (fst seg) (snd seg) = Raise e) /\
  fst out <> OutOfFuel /\
  forall r, fst out = Ok r ->
    r_t r = fst seg /\
    r_S r = map S_of (snd seg) /\
    r_I r = map I_of (snd seg) /\
    r_R r = map R_of (snd seg) /\
    compute_summary_statistics (fst seg) (snd seg) = Ok (r_stats r) /\
    r_beta r = map (fun ti => fst (call_beta ti (lit 0) p)) (r_t r) /\
    (forall b, p = Static b ->
       r_beta r = repeat (StaticBeta.beta_0 b) (List.length (r_t r))).
Proof.
  intros Hkind Hp. cbv zeta.
  assert (Hs : forall time I, snd (call_beta time I p) = p).
  { intros time i. destruct p as [b | b | b]; try reflexivity.
    exfalso. apply (Hp b). reflexivity. }
  assert (Hrun : run_scenario solve_sir fuel scenario_type t_span y0 gamma
                   control_interval dt p
                 = run_static_scenario solve_sir t_span y0 gamma dt p).
  { destruct Hkind as [-> | ->]; reflexivity. }
  rewrite Hrun.
  destruct (@run_static_scenario_stateless T N p Hs solve_sir t_span y0
              gamma dt) as [Hsnd Hfst].
  split; [exact Hsnd |]. rewrite Hfst.
  set (seg := fst (run_ode call_beta (solve_sir t_span y0 gamma dt) p)).
  destruct (compute_summary_statistics (fst seg) (snd seg)) as [st | e |]
    eqn:Est; cbn [rbind].
  - split; [intros e; split; discriminate |]. split; [discriminate |].
    intros r Hr. injection Hr as <-. cbn.
    repeat (split; [reflexivity |]).
    intros b ->.
    change (fun ti : T => fst (call_beta ti (lit 0) (Static b)))
      with (fun _ : T => StaticBeta.beta_0 b).
    apply map_const_repeat.
  - split; [intros e'; split; intros E; injection E as ->; reflexivity |].
    split; [discriminate |]. intros r Hr. discriminate.
  - exfalso. revert Est. clear.
    generalize (fst seg) (snd seg). intros t solution.
    unfold compute_summary_statistics.
    destruct (np_argmax (map I_of solution)) as [i | e |] eqn:Ea;
      cbn [rbind]; try discriminate.
    + unfold index_last, index.
      repeat match goal with
        | |- context [nth_error ?l ?n] =>
            destruct (nth_error l n); cbn [rbind]; try discriminate
        | |- context [np_where_lt ?l ?x] =>
            destruct (np_where_lt l x); cbn [rbind]; try discriminate
        end.
    + unfold np_argmax in Ea. destruct (map I_of solution); discriminate.
Qed.

Lemma stateless_scenarios_witness :
  snd (run_scenario solve_sir_heun 0 "nonstationary" (0, 1)
         (99#100, 1#100, 0) (1#10) 5 (1#2)
         (NonStationary (NonStationaryBeta.init (5#10) 50 (6#10) None
                           (5#10))))
  = NonStationary (NonStationaryBeta.init (T:=Q) (5#10) 50 (6#10) None
                     (5#10)).
Proof.
  exact (proj1 (@stateless_scenarios Q _ solve_sir_heun 0 "nonstationary"
                  (0, 1) (99#100, 1#100, 0) (1#10) 5 (1#2)
                  (NonStationary (NonStationaryBeta.init (5#10) 50 (6#10)
                                    None (5#10)))
                  (or_intror eq_refl) ltac:(intros b; discriminate))).
Defined.

(** X14.  Over an empty span ([t_end <= t_start]) the adaptive run resets
    the policy, skips the loop without calling the integrator, and fails in
    the statistics: [run_scenario] raises the [ValueError] of [np.argmax] on
    the empty arrays, whatever the integrator, state and step are. *)
Theorem adaptive_empty_span (solve_sir : solver Q) (b : AdaptiveBeta.t Q)
    (t_start t_end gamma control_interval dt : Q) (y0 : state Q)
    (fuel : nat) :
  t_end <= t_start ->
  run_scenario solve_sir fuel "adaptive" (t_start, t_end) y0 gamma
    control_interval dt (Adaptive b)
  = (Raise (ValueError "attempt to get an argmax of an empty sequence"),
     Adaptive (AdaptiveBeta.reset b)).
Proof.
  intros Hle.
  change (run_scenario solve_sir fuel "adaptive" (t_start, t_end) y0 gamma
            control_interval dt (Adaptive b))
    with (run_adaptive_scenario solve_sir fuel (t_start, t_end) y0 gamma
            control_interval dt (Adaptive b)).
  now apply empty_span_raises.
Qed.

Lemma adaptive_empty_span_witness :
  run_scenario solve_sir_heun 0 "adaptive" (3, 3) (99#100, 1#100, 0)
    (1#10) 5 (1#10) (Adaptive AdaptiveBeta.default)
  = (Raise (ValueError "attempt to get an argmax of an empty sequence"),
     Adaptive (AdaptiveBeta.reset AdaptiveBeta.default)).
Proof.
  apply (@adaptive_empty_span solve_sir_heun AdaptiveBeta.default 3 3).
  vm_compute. discriminate.
Defined.

Lemma py_min_le_l (a b : Q) : py_min a b <= a.
Proof.
  unfold py_min. qnum.
  destruct (Qltb b a) eqn:E;
    [apply Qltb_lt in E; now apply Qlt_le_weak | apply Qle_refl].
Qed.

Lemma time_grid_nonempty (t_span : Q * Q) (dt : Q) :
  time_grid t_span dt <> [].
Proof.
  unfold time_grid. destruct t_span as [t0 t1].
  destruct (Z.to_nat _); discriminate.
Qed.

Lemma solve_sir_heun_rows (t_span : Q * Q) (y0 : state Q) (gamma dt : Q) :
  ode_all (fun seg => snd seg <> [])
    (solve_sir_heun (T:=Q) t_span y0 gamma dt).
Proof.
  unfold solve_sir_heun.
  pose proof (time_grid_nonempty t_span dt) as Hg.
  destruct (time_grid t_span dt) as [| a rest]; [congruence |].
  apply ode_all_bind.
  pose proof (heun_steps_shape rest y0 a gamma) as Hs.
  generalize dependent (heun_steps y0 a rest gamma).
  intros m. induction m as [sol | time j k IHm]; cbn.
  - intros [Hl _]. destruct sol; [discriminate | discriminate].
  - intros Hk b. apply IHm, Hk.
Qed.

(** X15.  A non-positive control interval is not rejected and the loop
    cannot advance: on a span of positive length, with an integrator that
    always returns at least one row, the adaptive run never finishes,
    whatever fuel it is given. *)
Theorem nonpositive_control_interval_never_finishes (solve_sir : solver Q)
    (b : AdaptiveBeta.t Q) (t_start t_end gamma control_interval dt : Q)
    (y0 : state Q) (fuel : nat) :
  (forall t_span y g d,
     ode_all (fun seg => snd seg <> []) (solve_sir t_span y g d)) ->
  control_interval <= 0 ->
  t_start < t_end ->
  fst (run_scenario solve_sir fuel "adaptive" (t_start, t_end) y0 gamma
         control_interval dt (Adaptive b))
  = OutOfFuel.
Proof.
  intros Hrows Hci Hspan.
  change (run_scenario solve_sir fuel "adaptive" (t_start, t_end) y0 gamma
            control_interval dt (Adaptive b))
    with (run_adaptive_scenario solve_sir fuel (t_start, t_end) y0 gamma
            control_interval dt (Adaptive b)).
  unfold run_adaptive_scenario. unfold bind at 1. cbn [reset_beta].
  assert (Hloop : forall (v : loop_vars Q) (a : AdaptiveBeta.t Q),
    current_t v < t_end ->
    exists q, while_loop solve_sir fuel t_end gamma control_interval dt v
                (Adaptive a) = (OutOfFuel, q)).
  { induction fuel as [| n IH]; intros v a Hv; cbn [while_loop]; qnum;
      rewrite (proj2 (Qltb_lt _ _) Hv).
    - eexists. reflexivity.
    - unfold bind at 1. unfold loop_body at 1. unfold bind, integrate.
      qnum.
      set (next_t := py_min (current_t v + control_interval) t_end).
      set (beta_wrapper :=
             fun (time _ : Q) => call_beta time (I_of (current_y v))).
      set (prog := solve_sir (current_t v, next_t) (current_y v) gamma dt).
      pose proof (@ode_all_run Q _ _ _ beta_wrapper prog (Adaptive a)
                    (Hrows _ _ _ _)) as Hseg.
      pose proof (@run_ode_config Q _ beta_wrapper prog
                    (fun time i p => call_beta_config time _ p) (Adaptive a))
        as Hcfg.
      destruct (run_ode beta_wrapper prog (Adaptive a))
        as [[segment_t segment_sol] p1].
      cbn [fst snd] in Hseg, Hcfg.
      destruct p1 as [a' | a' | a']; cbn in Hcfg; try contradiction.
      cbn [get_current_beta]. unfold lift, index_last, index.
      rewrite (@nth_error_last_eq _ segment_sol (current_y v)) by exact Hseg.
      apply IH. cbn [current_t].
      eapply Qle_lt_trans; [apply py_min_le_l |]. lra. }
  destruct (Hloop (init_vars t_start y0) (AdaptiveBeta.reset b) Hspan)
    as (q & Hq).
  unfold bind. fold (init_vars t_start y0). rewrite Hq. reflexivity.
Qed.

Lemma nonpositive_control_interval_never_finishes_witness :
  fst (run_scenario solve_sir_heun 7 "adaptive" (0, 10) (99#100, 1#100, 0)
         (1#10) (-5) (1#10) (Adaptive AdaptiveBeta.default))
  = OutOfFuel.
Proof.
  apply (@nonpositive_control_interval_never_finishes solve_sir_heun
           AdaptiveBeta.default 0 10 (1#10) (-5) (1#10) (99#100, 1#100, 0) 7
           solve_sir_heun_rows).
  - vm_compute. discriminate.
  - reflexivity.
Defined.

(** ** The shape of an adaptive run *)

Lemma chain_length (t : Q) (y : state Q) segs (t' : Q) (y' : state Q) :
  chain t y segs t' y' ->
  segs <> [] ->
  List.length (stitch (map fst segs))
  = S (list_sum (map (fun seg => List.length (fst seg) - 1)%nat segs)).
Proof.
  induction 1 as [| segs t1 y1 t2 seg Hc IH Hlt Hok]; [congruence |].
  intros _.
  destruct (@segment_ok_shape _ _ _ _ Hok Hlt)
    as (ts & ys & yl & Ht & Hy & Hlen & Hinc).
  rewrite !map_app, list_sum_app. cbn [map list_sum fold_right].
  rewrite stitch_snoc.
  destruct segs as [| s0 r].
  - cbn [map list_sum fold_right]. rewrite Ht. cbn [List.length]. lia.
  - change (map fst (s0 :: r)) with (fst s0 :: map fst r) in *.
    cbv iota. rewrite length_app, IH by discriminate.
    rewrite length_tl. lia.
Qed.

(** X16.  The size of the trajectory of an adaptive run (positive control
    interval and step, span of positive length, integrator as section 4.3
    asks): the loop runs [ceil((t_end - t_start) / control_interval)]
    segments, the stitched trajectory has one sample plus, for every
    segment, its samples but the first, and the four data columns and the
    rate trace have the length of the time column. *)
Theorem adaptive_sample_count (solve_sir : solver Q) (b : AdaptiveBeta.t Q)
    (t_start t_end gamma control_interval dt : Q) (y0 : state Q)
    (fuel : nat) :
  solver_ok solve_sir ->
  0 < control_interval -> 0 < dt -> t_start < t_end ->
  (iterations t_start t_end control_interval <= fuel)%nat ->
  exists r v b',
    run_adaptive_scenario solve_sir fuel (t_start, t_end) y0 gamma
      control_interval dt (Adaptive b) = (Ok r, Adaptive b') /\
    while_loop solve_sir fuel t_end gamma control_interval dt
      (init_vars t_start y0) (Adaptive (AdaptiveBeta.reset b))
      = (Ok v, Adaptive b') /\
    List.length (segments v) = iterations t_start t_end control_interval /\
    List.length (r_t r)
    = S (list_sum (map (fun seg => List.length (fst seg) - 1)%nat
                     (segments v))) /\
    List.length (r_S r) = List.length (r_t r) /\
    List.length (r_I r) = List.length (r_t r) /\
    List.length (r_R r) = List.length (r_t r) /\
    List.length (r_beta r) = List.length (r_t r).
Proof.
  intros Hsolve Hci Hdt Hspan Hfuel.
  destruct (@run_adaptive_scenario_chain solve_sir b t_start t_end gamma
              control_interval dt y0 fuel Hsolve Hci Hdt Hspan Hfuel)
    as (r & v & b' & Hrun & Hw & Hchain & Hne & Hend & HT & HS & HI & HR & HB).
  exists r, v, b'. split; [exact Hrun |]. split; [exact Hw |].
  split.
  { destruct (@while_loop_terminates solve_sir t_end gamma control_interval
                dt fuel Hci (init_vars t_start y0)
                (Adaptive (AdaptiveBeta.reset b)) Hfuel) as [_ Hres].
    rewrite Hw in Hres.
    destruct Hres as [(v' & p2 & Hw' & Hl & _) | (e & p2 & Hw')];
      [| discriminate].
    injection Hw' as <- <-. exact Hl. }
  split; [rewrite HT; now apply (chain_length Hchain) |].
  assert (Hrows : List.length (stitch (map snd (segments v)))
                  = List.length (stitch (map fst (segments v)))).
  { pose proof (chain_facts Hchain) as Hf.
    destruct (segments v); [congruence |].
    destruct Hf as (T0 & Y0 & HfT & HfY & HfL & _).
    rewrite HfT, HfY, !length_app, HfL. reflexivity. }
  rewrite HS, HI, HR, HT, !length_map.
  repeat (split; [exact Hrows |]). rewrite HB, HT. reflexivity.
Qed.

Lemma adaptive_sample_count_witness :
  exists r,
    fst (run_adaptive_scenario solve_sir_heun 3 (0, 1) (99#100, 1#100, 0)
           (1#10) (4#10) (2#10) (Adaptive AdaptiveBeta.default)) = Ok r /\
    List.length (r_beta r) = List.length (r_t r).
Proof.
  destruct (@adaptive_sample_count solve_sir_heun AdaptiveBeta.default 0 1
              (1#10) (4#10) (2#10) (99#100, 1#100, 0) 3 solve_sir_heun_ok
              eq_refl eq_refl eq_refl (le_n 3))
    as (r & v & b' & Hrun & _ & _ & _ & _ & _ & _ & Hb).
  exists r. rewrite Hrun. auto.
Defined.

Lemma chain_end_unique (t : Q) (y : state Q) segs (t1 t2 : Q)
    (y1 y2 : state Q) :
  chain t y segs t1 y1 -> chain t y segs t2 y2 -> t1 = t2 /\ y1 = y2.
Proof.
  intros H1 H2. pose proof (chain_facts H1) as F1.
  pose proof (chain_facts H2) as F2.
  destruct segs as [| s0 r].
  - destruct F1 as [-> ->]. destruct F2 as [-> ->]. auto.
  - destruct F1 as (T1 & Y1 & E1 & E1' & _).
    destruct F2 as (T2 & Y2 & E2 & E2' & _).
    rewrite E1 in E2. rewrite E1' in E2'.
    apply app_inj_tail in E2. apply app_inj_tail in E2'. tauto.
Qed.

Section Pacing.
Variable solve_sir : solver Q.
Hypothesis solve_sir_ok : solver_ok solve_sir.
Variables t_start t_end gamma control_interval dt : Q.
Variable y0 : state Q.
Hypothesis control_interval_pos : 0 < control_interval.
Hypothesis dt_pos : 0 < dt.

Lemma loop_body_paced (v : loop_vars Q) (b : AdaptiveBeta.t Q) :
  loop_inv t_start y0 v ->
  current_t v < t_end ->
  Forall (paced control_interval t_end) (segments v) ->
  exists v' b',
    loop_body solve_sir t_end gamma control_interval dt v (Adaptive b)
      = (Ok v', Adaptive b') /\
    loop_inv t_start y0 v' /\
    current_t v' = py_min (current_t v + control_interval) t_end /\
    Forall (paced control_interval t_end) (segments v').
Proof.
  intros Hinv Hlt Hp.
  destruct (@loop_body_inv solve_sir solve_sir_ok t_start t_end gamma
              control_interval dt y0 control_interval_pos dt_pos v b Hinv Hlt)
    as (v' & b' & Hb & Hinv' & Ht).
  exists v', b'. split; [exact Hb |]. split; [exact Hinv' |].
  split; [exact Ht |].
  destruct (@loop_body_cases solve_sir t_end gamma control_interval dt v
              (Adaptive b))
    as [(v2 & p2 & seg & Hb2 & _ & Hs) | (e & p2 & Hb2)];
    rewrite Hb in Hb2; [| discriminate].
  injection Hb2 as <- <-. rewrite Hs.
  apply Forall_app. split; [exact Hp |]. constructor; [| constructor].
  destruct Hinv as (Hchain & _). destruct Hinv' as (Hchain' & _).
  rewrite Hs in Hchain'.
  inversion Hchain' as [E | segs0 t1 y1 t2 seg0 Hc0 Hlt0 Hok E Et Ey].
  { destruct (segments v); discriminate. }
  apply app_inj_tail in E. destruct E as [-> ->].
  destruct (chain_end_unique Hc0 Hchain) as [-> ->].
  destruct Hok as (_ & Hhd & Hlast & _).
  exists (current_t v). split; [exact Hhd |]. split; [exact Hlt |].
  rewrite Hlast. exact Ht.
Qed.

Lemma while_loop_paced (fuel : nat) :
  forall (v : loop_vars Q) (b : AdaptiveBeta.t Q),
    loop_inv t_start y0 v ->
    (iterations (current_t v) t_end control_interval <= fuel)%nat ->
    Forall (paced control_interval t_end) (segments v) ->
    exists v' b',
      while_loop solve_sir fuel t_end gamma control_interval dt v (Adaptive b)
        = (Ok v', Adaptive b') /\
      loop_inv t_start y0 v' /\
      Forall (paced control_interval t_end) (segments v').
Proof.
  induction fuel as [| fuel IH]; intros v b Hinv Hn Hp;
    cbn [while_loop]; qnum;
    destruct (Qltb (current_t v) t_end) eqn:E.
  - apply Qltb_lt in E.
    rewrite (iterations_step control_interval_pos E) in Hn. lia.
  - exists v, b. auto.
  - apply Qltb_lt in E.
    rewrite (iterations_step control_interval_pos E) in Hn.
    destruct (loop_body_paced b Hinv E Hp) as (v' & b' & Hb & Hinv' & Ht & Hp').
    unfold bind at 1. rewrite Hb.
    apply IH; [exact Hinv' | rewrite Ht; lia | exact Hp'].
  - exists v, b. auto.
Qed.
End Pacing.

Lemma paced_checkpoints (t : Q) (y : state Q) segs (t' : Q) (y' : state Q)
    (control_interval t_end : Q) :
  chain t y segs t' y' ->
  Forall (paced control_interval t_end) segs ->
  forall k seg,
    nth_error segs k = Some seg ->
    exists a,
      hd_error (fst seg) = Some a /\
      a == t + inject_Z (Z.of_nat k) * control_interval /\
      a < t_end /\
      last (fst seg) a = py_min (a + control_interval) t_end.
Proof.
  intros Hchain Hp k. induction k as [| k IH]; intros seg Hk.
  - destruct segs as [| s0 r]; [discriminate |]. injection Hk as ->.
    pose proof (chain_facts Hchain) as Hf.
    destruct Hf as (_ & _ & _ & _ & _ & Hhd & _).
    apply Forall_inv in Hp. destruct Hp as (a & Ha & Hlt & Hl).
    exists a. split; [exact Ha |]. split; [| split; assumption].
    change (map fst (seg :: r)) with (fst seg :: map fst r) in Hhd.
    cbn [stitch] in Hhd. destruct (fst seg) as [| x l]; [discriminate |].
    cbn in Ha, Hhd. injection Ha as ->. injection Hhd as ->.
    change (inject_Z (Z.of_nat 0)) with 0. ring.
  - assert (Hkl : (k < List.length segs)%nat).
    { assert (S k < List.length segs)%nat
        by (apply nth_error_Some; rewrite Hk; discriminate). lia. }
    destruct (nth_error segs k) as [seg' |] eqn:Ek;
      [| apply nth_error_None in Ek; lia].
    destruct (IH seg' eq_refl) as (a' & Ha' & Ea' & Hlt' & Hl').
    destruct (@chain_consecutive _ _ _ _ _ Hchain k seg' seg Ek Hk)
      as [Hhd _].
    assert (Hin : In seg segs) by (eapply nth_error_In; eauto).
    pose proof (proj1 (Forall_forall _ _) Hp seg Hin) as (a & Ha & Hlt & Hl).
    exists a. split; [exact Ha |]. split; [| split; assumption].
    rewrite Ha in Hhd. injection Hhd as Hhd.
    rewrite (@last_indep _ (fst seg') t a') in Hhd
      by (destruct (fst seg'); discriminate).
    rewrite Hl' in Hhd. unfold py_min in Hhd. qnum.
    destruct (Qltb t_end (a' + control_interval)) eqn:E.
    + subst a. exfalso. revert Hlt. apply Qlt_irrefl.
    + subst a. rewrite Ea'. rewrite Nat2Z.inj_succ. unfold Z.succ.
      rewrite inject_Z_plus. change (inject_Z 1) with 1. ring.
Qed.

(** X17.  The control checkpoints of an adaptive run (positive control
    interval and step, span of positive length, integrator as section 4.3
    asks) lie on the grid of the control interval: segment number [k]
    starts at [t_start + k * control_interval], before [t_end], and ends one
    control interval later, or at [t_end] when that comes first. *)
Theorem adaptive_checkpoints (solve_sir : solver Q) (b : AdaptiveBeta.t Q)
    (t_start t_end gamma control_interval dt : Q) (y0 : state Q)
    (fuel : nat) :
  solver_ok solve_sir ->
  0 < control_interval -> 0 < dt -> t_start < t_end ->
  (iterations t_start t_end control_interval <= fuel)%nat ->
  exists v b',
    while_loop solve_sir fuel t_end gamma control_interval dt
      (init_vars t_start y0) (Adaptive (AdaptiveBeta.reset b))
      = (Ok v, Adaptive b') /\
    forall k seg,
      nth_error (segments v) k = Some seg ->
      exists a,
        hd_error (fst seg) = Some a /\
        a == t_start + inject_Z (Z.of_nat k) * control_interval /\
        a < t_end /\
        (a + control_interval <= t_end ->
           last (fst seg) a = a + control_interval) /\
        (t_end < a + control_interval -> last (fst seg) a = t_end).
Proof.
  intros Hsolve Hci Hdt Hspan Hfuel.
  destruct (@while_loop_paced solve_sir Hsolve t_start t_end gamma
              control_interval dt y0 Hci Hdt fuel (init_vars t_start y0)
              (AdaptiveBeta.reset b) (loop_inv_init t_start y0) Hfuel
              (Forall_nil _))
    as (v & b' & Hw & (Hchain & _) & Hp).
  exists v, b'. split; [exact Hw |].
  intros k seg Hk.
  destruct (paced_checkpoints Hchain Hp k Hk) as (a & Ha & Ea & Hlt & Hl).
  exists a. split; [exact Ha |]. split; [exact Ea |]. split; [exact Hlt |].
  rewrite Hl. unfold py_min. qnum. split.
  - intros Hle. apply Qltb_ge in Hle. rewrite Hle. reflexivity.
  - intros Hgt. apply Qltb_lt in Hgt. rewrite Hgt. reflexivity.
Qed.

Lemma adaptive_checkpoints_witness :
  exists v b',
    while_loop solve_sir_heun 3 1 (1#10) (4#10) (2#10)
      (init_vars 0 (99#100, 1#100, 0))
      (Adaptive (AdaptiveBeta.reset AdaptiveBeta.default))
      = (Ok v, Adaptive b') /\
    forall seg, nth_error (segments v) 2 = Some seg ->
      exists a, hd_error (fst seg) = Some a /\
                a == 0 + inject_Z (Z.of_nat 2) * (4#10).
Proof.
  destruct (@adaptive_checkpoints solve_sir_heun AdaptiveBeta.default 0 1
              (1#10) (4#10) (2#10) (99#100, 1#100, 0) 3 solve_sir_heun_ok
              eq_refl eq_refl eq_refl (le_n 3))
    as (v & b' & Hw & Hk).
  exists v, b'. split; [exact Hw |].
  intros seg Hs. destruct (Hk 2%nat seg Hs) as (a & Ha & Ea & _).
  exists a. split; assumption.
Defined.
